(** * A rotating cube with coordinate axes: the GLWidget of 3d_interface.py

    The widget keeps a rotation angle, a model, a view and a projection
    matrix, and two static vertex tables.  A timer advances the angle, a
    resize recomputes the projection, and a repaint loads one combined
    transform and submits both tables through immediate-mode OpenGL.

    Conventions of the embedding.
    - A Python [float] is a binary64 number: the kernel's [float], with its
      IEEE 754 addition, subtraction, division and comparisons.  The
      entries of the two [float32] tables are binary64 numbers as well
      (each of them is representable in both formats).
    - The matrix library (pyrr) and numpy's [radians] are external: the
      widget only calls them.  They are the fields of the class [Pyrr].
    - A method is a computation in the monad [M]: it threads the widget
      (Python mutates [self] in place, so the widget reached so far is
      kept when an exception is raised) and logs the calls made to OpenGL
      and to Qt. *)

From Stdlib Require Import List ZArith QArith Qround Qpower Qabs Lqa Lia.
From Stdlib Require Import Bool Floats.
Import ListNotations.

Set Implicit Arguments.
Set Warnings "-inexact-float".

Open Scope float_scope.

(** ** Numbers *)

(** A Python integer as a float: the nearest binary64 number, which is the
    integer itself up to magnitude 2^53. *)
Definition Z2float (z : Z) : float :=
  SF2Prim (binary_normalize prec emax z 0 false).

(** A Python integer as the exact operand of a division. *)
Definition Z2SF (z : Z) : spec_float :=
  match z with
  | Z0 => S754_zero false
  | Zpos p => S754_finite false p 0
  | Zneg p => S754_finite true p 0
  end.

(** The quotient of two Python integers as [w / h] computes it for a
    divisor that is not zero: the exact quotient of the integers, however
    large they are, rounded once to the nearest binary64 number, ties to
    even; an infinity is a quotient beyond the range of a float. *)
Definition quotient (w h : Z) : spec_float :=
  SFdiv prec emax (Z2SF w) (Z2SF h).

(** Whether [w / h] is too large for a float, which Python reports as an
    [OverflowError]. *)
Definition overflows (w h : Z) : bool :=
  match quotient w h with
  | S754_infinity _ => true
  | _ => false
  end.

(** The rational a finite binary64 number denotes: mantissa times two to
    the exponent. *)
Definition SF2Q (x : spec_float) : option Q :=
  match x with
  | S754_zero _ => Some 0%Q
  | S754_finite s m e => Some (inject_Z (cond_Zopp s (Z.pos m)) * 2 ^ e)%Q
  | _ => None
  end.

Definition to_Q (f : float) : option Q := SF2Q (Prim2SF f).

(** [0 <= f < 360] *)
Definition in_range (f : float) : bool := (0 <=? f) && (f <? 360).

(** [mod] as the specification writes it: the remainder with the sign of
    the divisor, [x - m * floor (x / m)]. *)
Definition spec_mod (x m : Q) : Q :=
  (x - m * inject_Z (Qfloor (x / m)))%Q.

(** What one call of [update_rotation] does to the angle. *)
Definition next_angle (a : float) : float :=
  let a := a + 1.0 in
  if 360.0 <=? a then a - 360.0 else a.

(** ** The external matrix library *)

Class Pyrr : Type := {
  Matrix44 : Type;
  (** [Matrix44.identity()] *)
  identity : Matrix44;
  (** [Matrix44.look_at(eye=, target=, up=)] *)
  look_at : list float -> list float -> list float -> Matrix44;
  (** [Matrix44.perspective_projection(fovy, aspect, near, far)] *)
  perspective_projection : float -> float -> float -> float -> Matrix44;
  (** [Matrix44.from_y_rotation(theta)] *)
  from_y_rotation : float -> Matrix44;
  (** [a * b] on two [Matrix44] objects *)
  mul : Matrix44 -> Matrix44 -> Matrix44;
  (** [m.astype('f4')] *)
  astype_f4 : Matrix44 -> Matrix44;
  (** [np.radians(x)] *)
  radians : float -> float
}.

(** What the development takes from the library about its numbers, each
    a fact of numpy and pyrr at the angle zero.  [allclose eps a b] is the
    comparison of two matrices entry by entry up to the tolerance [eps]
    (numpy's [allclose]). *)
Class PyrrLaws (P : Pyrr) : Type := {
  allclose : float -> Matrix44 -> Matrix44 -> bool;
  (** [np.radians(0.0)] is [0.0 * (pi / 180)], that is 0.0 *)
  radians_0 : radians 0.0 = 0.0;
  (** [Matrix44.from_y_rotation(0.0)] has [cos(0.0)], that is 1.0, on the
      diagonal and plus or minus [sin(0.0)], that is zero, off it *)
  from_y_rotation_0 :
    forall eps, (0 <=? eps) = true ->
                allclose eps (from_y_rotation 0.0) identity = true
}.

(** ** OpenGL and Qt calls, as the widget issues them *)

Inductive GLenum : Set :=
| GL_DEPTH_TEST
| GL_MODELVIEW
| GL_LINES
| GL_QUADS.

Inductive GLbitfield : Set :=
| GL_COLOR_BUFFER_BIT
| GL_DEPTH_BUFFER_BIT.

(** The exceptions the widget's own code can meet.  [OperandError] stands
    for whatever the product [None * matrix] raises: Python's [TypeError]
    or an error of the matrix library. *)
Inductive PyExn : Set :=
| ZeroDivisionError
| OverflowError
| IndexError
| OperandError.

Record Geometry : Set := { vertices : list float }.

(** ** init_geometries *)

Definition axes_vertices : list float := [
  (* X axis (red) *)
  0.0; 0.0; 0.0; 1.0; 0.0; 0.0;
  1.0; 0.0; 0.0; 1.0; 0.0; 0.0;
  (* Y axis (green) *)
  0.0; 0.0; 0.0; 0.0; 1.0; 0.0;
  0.0; 1.0; 0.0; 0.0; 1.0; 0.0;
  (* Z axis (blue) *)
  0.0; 0.0; 0.0; 0.0; 0.0; 1.0;
  0.0; 0.0; 1.0; 0.0; 0.0; 1.0
].

Definition cube_vertices : list float := [
  (* Front face (cyan) *)
  -0.5; -0.5;  0.5;  0.0; 1.0; 1.0;
   0.5; -0.5;  0.5;  0.0; 1.0; 1.0;
   0.5;  0.5;  0.5;  0.0; 1.0; 1.0;
  -0.5;  0.5;  0.5;  0.0; 1.0; 1.0;
  (* Back face (magenta) *)
  -0.5; -0.5; -0.5;  1.0; 0.0; 1.0;
   0.5; -0.5; -0.5;  1.0; 0.0; 1.0;
   0.5;  0.5; -0.5;  1.0; 0.0; 1.0;
  -0.5;  0.5; -0.5;  1.0; 0.0; 1.0;
  (* Left face (yellow) *)
  -0.5; -0.5; -0.5;  1.0; 1.0; 0.0;
  -0.5; -0.5;  0.5;  1.0; 1.0; 0.0;
  -0.5;  0.5;  0.5;  1.0; 1.0; 0.0;
  -0.5;  0.5; -0.5;  1.0; 1.0; 0.0;
  (* Right face (green) *)
   0.5; -0.5; -0.5;  0.0; 1.0; 0.0;
   0.5; -0.5;  0.5;  0.0; 1.0; 0.0;
   0.5;  0.5;  0.5;  0.0; 1.0; 0.0;
   0.5;  0.5; -0.5;  0.0; 1.0; 0.0;
  (* Top face (blue) *)
  -0.5;  0.5; -0.5;  0.0; 0.0; 1.0;
  -0.5;  0.5;  0.5;  0.0; 0.0; 1.0;
   0.5;  0.5;  0.5;  0.0; 0.0; 1.0;
   0.5;  0.5; -0.5;  0.0; 0.0; 1.0;
  (* Bottom face (red) *)
  -0.5; -0.5; -0.5;  1.0; 0.0; 0.0;
  -0.5; -0.5;  0.5;  1.0; 0.0; 0.0;
   0.5; -0.5;  0.5;  1.0; 0.0; 0.0;
   0.5; -0.5; -0.5;  1.0; 0.0; 0.0
].

(** The two tables [init_geometries] stores in [self.axes] and
    [self.cube]. *)
Definition init_geometries : Geometry * Geometry :=
  ({| vertices := axes_vertices |}, {| vertices := cube_vertices |}).

(** ** The vertex tables as geometry

    Both tables are interleaved: six numbers per vertex, a position
    followed by a colour, which is how [draw_axes] and [draw_cube] index
    them. *)

Definition Vec3 : Set := (float * float * float)%type.

Record Vertex : Set := { position : Vec3; color : Vec3 }.

Fixpoint interleaved (arr : list float) : list Vertex :=
  match arr with
  | x :: y :: z :: r :: g :: b :: rest =>
      {| position := (x, y, z); color := (r, g, b) |} :: interleaved rest
  | _ => []
  end.

(** Consecutive groups of two (lines) and of four (quads), as [GL_LINES]
    and [GL_QUADS] assemble the submitted vertices. *)
Fixpoint lines (vs : list Vertex) : list (Vertex * Vertex) :=
  match vs with
  | a :: b :: rest => (a, b) :: lines rest
  | _ => []
  end.

Fixpoint quads (vs : list Vertex) : list (Vertex * Vertex * Vertex * Vertex) :=
  match vs with
  | a :: b :: c :: d :: rest => (a, b, c, d) :: quads rest
  | _ => []
  end.

Inductive Axis : Set := AxisX | AxisY | AxisZ.

Definition coord (k : Axis) (v : Vec3) : float :=
  match v, k with
  | (x, _, _), AxisX => x
  | (_, y, _), AxisY => y
  | (_, _, z), AxisZ => z
  end.

(** Equality of two numbers, as [==] compares floats. *)
Definition feq (x y : float) : Prop := (x =? y) = true.

Definition vec_eq (u v : Vec3) : Prop :=
  feq (coord AxisX u) (coord AxisX v)
  /\ feq (coord AxisY u) (coord AxisY v)
  /\ feq (coord AxisZ u) (coord AxisZ v).

(** The squared Euclidean distance. *)
Definition dist2 (u v : Vec3) : float :=
  (coord AxisX u - coord AxisX v) * (coord AxisX u - coord AxisX v)
  + (coord AxisY u - coord AxisY v) * (coord AxisY u - coord AxisY v)
  + (coord AxisZ u - coord AxisZ v) * (coord AxisZ u - coord AxisZ v).

Definition centroid4 (a b c d : Vec3) : Vec3 :=
  ((coord AxisX a + coord AxisX b + coord AxisX c + coord AxisX d) / 4,
   (coord AxisY a + coord AxisY b + coord AxisY c + coord AxisY d) / 4,
   (coord AxisZ a + coord AxisZ b + coord AxisZ c + coord AxisZ d) / 4).

(** The point at distance [h] from the origin along axis [k]. *)
Definition on_axis (k : Axis) (h : float) : Vec3 :=
  match k with
  | AxisX => (h, 0, 0)
  | AxisY => (0, h, 0)
  | AxisZ => (0, 0, h)
  end.

(** A quad is a unit square in the plane [coord k = h]: its four corners
    lie in that plane, its four sides have length 1, its two diagonals have
    the length of a square's, and its centre is the point of the axis in
    that plane. *)
Definition unit_square_at (k : Axis) (h : float)
    (q : Vertex * Vertex * Vertex * Vertex) : Prop :=
  let '(a, b, c, d) := q in
  let pa := position a in let pb := position b in
  let pc := position c in let pd := position d in
  (feq (coord k pa) h /\ feq (coord k pb) h
   /\ feq (coord k pc) h /\ feq (coord k pd) h
   /\ feq (dist2 pa pb) 1 /\ feq (dist2 pb pc) 1
   /\ feq (dist2 pc pd) 1 /\ feq (dist2 pd pa) 1
   /\ feq (dist2 pa pc) 2 /\ feq (dist2 pb pd) 2)
  /\ vec_eq (centroid4 pa pb pc pd) (on_axis k h).

(** All four corners carry the colour [c]. *)
Definition flat_color (c : Vec3) (q : Vertex * Vertex * Vertex * Vertex) : Prop :=
  let '(a, b, c0, d) := q in
  vec_eq (color a) c /\ vec_eq (color b) c /\ vec_eq (color c0) c /\ vec_eq (color d) c.

(** The colour of a quad's first corner. *)
Definition face_color (q : Vertex * Vertex * Vertex * Vertex) : Vec3 :=
  let '(a, _, _, _) := q in color a.

(** The plane and the colour of each face, in the order of the table:
    front, back, left, right, top, bottom. *)
Definition cube_face_planes : list (Axis * float * Vec3) := [
  (AxisZ,  0.5, (0, 1, 1));
  (AxisZ, -0.5, (1, 0, 1));
  (AxisX, -0.5, (1, 1, 0));
  (AxisX,  0.5, (0, 1, 0));
  (AxisY,  0.5, (0, 0, 1));
  (AxisY, -0.5, (1, 0, 0))
].

(** The eight corners of the cube of side 1 centred at the origin. *)
Definition cube_corners : list Vec3 :=
  flat_map (fun x => flat_map (fun y => map (fun z => (x, y, z)) [-0.5; 0.5])
                              [-0.5; 0.5])
           [-0.5; 0.5].

Definition vec_eqb (u v : Vec3) : bool :=
  (coord AxisX u =? coord AxisX v)
  && (coord AxisY u =? coord AxisY v)
  && (coord AxisZ u =? coord AxisZ v).

(** How many vertices of a table sit at the point [p]. *)
Definition count_position (p : Vec3) (vs : list Vertex) : nat :=
  length (filter (fun v => vec_eqb (position v) p) vs).

(** ** The widget *)

Section Widget.

Context `{P : Pyrr}.

Inductive Call : Type :=
| glEnable (cap : GLenum)
| glClearColor (r g b a : float)
| glViewport (x y w h : Z)
| glClear (mask : list GLbitfield)
| glMatrixMode (mode : GLenum)
| glLoadMatrixf (m : Matrix44)
| glBegin (mode : GLenum)
| glEnd
| glColor3f (r g b : float)
| glVertex3f (x y z : float)
| update.

(** The attributes [__init__] and [init_geometries] assign.  [proj] is
    [None] until the first [resizeGL]. *)
Record GLWidget : Type := {
  angle : float;
  proj : option Matrix44;
  view : Matrix44;
  model : Matrix44;
  axes : Geometry;
  cube : Geometry
}.

Definition set_angle (a : float) (s : GLWidget) : GLWidget :=
  {| angle := a; proj := proj s; view := view s; model := model s;
     axes := axes s; cube := cube s |}.

Definition set_proj (p : option Matrix44) (s : GLWidget) : GLWidget :=
  {| angle := angle s; proj := p; view := view s; model := model s;
     axes := axes s; cube := cube s |}.

Definition set_model (m : Matrix44) (s : GLWidget) : GLWidget :=
  {| angle := angle s; proj := proj s; view := view s; model := m;
     axes := axes s; cube := cube s |}.

(** *** The method monad *)

Inductive Result (A : Type) : Type :=
| Ok (a : A) (s : GLWidget) (log : list Call)
| Raise (e : PyExn) (s : GLWidget) (log : list Call).

Arguments Raise {A} e s log.

Definition M (A : Type) : Type := GLWidget -> Result A.

Definition ret {A} (a : A) : M A := fun s => Ok a s [].

Definition bind {A B} (m : M A) (k : A -> M B) : M B :=
  fun s =>
    match m s with
    | Ok a s1 l1 =>
        match k a s1 with
        | Ok b s2 l2 => Ok b s2 (l1 ++ l2)
        | Raise e s2 l2 => Raise e s2 (l1 ++ l2)
        end
    | Raise e s1 l1 => Raise e s1 l1
    end.

Definition raise {A} (e : PyExn) : M A := fun s => Raise e s [].

Definition call (c : Call) : M unit := fun s => Ok tt s [c].

Definition get {A} (field : GLWidget -> A) : M A := fun s => Ok (field s) s [].

Definition modify (f : GLWidget -> GLWidget) : M unit := fun s => Ok tt (f s) [].

Notation "x <- m ;; k" := (bind m (fun x => k))
  (at level 61, m at next level, right associativity).
Notation "m ;; k" := (bind m (fun _ => k))
  (at level 61, right associativity).

(** The widget and the log a computation ends with, returned or raised. *)
Definition state_of {A} (r : Result A) : GLWidget :=
  match r with Ok _ s _ => s | Raise _ s _ => s end.

Definition log_of {A} (r : Result A) : list Call :=
  match r with Ok _ _ l => l | Raise _ _ l => l end.

(** [for i in items: body(i)] *)
Fixpoint for_ (items : list nat) (body : nat -> M unit) : M unit :=
  match items with
  | [] => ret tt
  | i :: rest => body i ;; for_ rest body
  end.

(** [range(start, stop, step)] for a positive step. *)
Definition range (start stop step : nat) : list nat :=
  map (fun k => (start + k * step)%nat)
      (seq 0 ((stop - start + (step - 1)) / step)%nat).

(** [arr[i]] on a one-dimensional array, for an index that is not negative. *)
Definition getitem (arr : list float) (i : nat) : M float :=
  match nth_error arr i with
  | Some x => ret x
  | None => raise IndexError
  end.

(** [w / h] on two Python integers: [ZeroDivisionError] for the divisor
    0, [OverflowError] when the rounded quotient is beyond the range of a
    float, and the correctly rounded quotient of the two integers
    otherwise. *)
Definition truediv (w h : Z) : M float :=
  if (h =? 0)%Z then raise ZeroDivisionError
  else
    match quotient w h with
    | S754_infinity _ => raise OverflowError
    | q => ret (SF2Prim q)
    end.

(** [a * b] where [a] may still be [None]: no product is defined then. *)
Definition mul_obj (a : option Matrix44) (b : Matrix44) : M Matrix44 :=
  match a with
  | Some a' => ret (mul a' b)
  | None => raise OperandError
  end.

(** *** __init__

    The timer [__init__] starts is the source of the [Timeout] events of
    the event loop below. *)

Definition __init__ : GLWidget :=
  {| angle := 0.0;
     proj := None;
     view := look_at [3.0; 3.0; 3.0] [0.0; 0.0; 0.0] [0.0; 1.0; 0.0];
     model := identity;
     axes := fst init_geometries;
     cube := snd init_geometries |}.

(** *** The methods *)

Definition initializeGL : M unit :=
  call (glEnable GL_DEPTH_TEST) ;;
  call (glClearColor 0.1 0.1 0.1 1.0).

Definition resizeGL (w h : Z) : M unit :=
  call (glViewport 0 0 w h) ;;
  aspect <- (if negb (h =? 0)%Z then truediv w h else ret 1) ;;
  modify (set_proj (Some (perspective_projection 45.0 aspect 0.1 100.0))).

Definition draw_axes : M unit :=
  call (glBegin GL_LINES) ;;
  arr <- get (fun s => vertices (axes s)) ;;
  for_ (range 0 (length arr) 12) (fun i : nat =>
    r <- getitem arr (i + 3) ;;
    g <- getitem arr (i + 4) ;;
    b <- getitem arr (i + 5) ;;
    call (glColor3f r g b) ;;
    x <- getitem arr i ;;
    y <- getitem arr (i + 1) ;;
    z <- getitem arr (i + 2) ;;
    call (glVertex3f x y z) ;;
    r <- getitem arr (i + 9) ;;
    g <- getitem arr (i + 10) ;;
    b <- getitem arr (i + 11) ;;
    call (glColor3f r g b) ;;
    x <- getitem arr (i + 6) ;;
    y <- getitem arr (i + 7) ;;
    z <- getitem arr (i + 8) ;;
    call (glVertex3f x y z)) ;;
  call glEnd.

Definition draw_cube : M unit :=
  call (glBegin GL_QUADS) ;;
  arr <- get (fun s => vertices (cube s)) ;;
  for_ (range 0 (length arr) 24) (fun i : nat =>
    for_ (range 0 4 1) (fun j : nat =>
      let vertex_offset := (i + j * 6)%nat in
      r <- getitem arr (vertex_offset + 3) ;;
      g <- getitem arr (vertex_offset + 4) ;;
      b <- getitem arr (vertex_offset + 5) ;;
      call (glColor3f r g b) ;;
      x <- getitem arr vertex_offset ;;
      y <- getitem arr (vertex_offset + 1) ;;
      z <- getitem arr (vertex_offset + 2) ;;
      call (glVertex3f x y z))) ;;
  call glEnd.

Definition paintGL : M unit :=
  call (glClear [GL_COLOR_BUFFER_BIT; GL_DEPTH_BUFFER_BIT]) ;;
  p <- get proj ;;
  v <- get view ;;
  pv <- mul_obj p v ;;
  m <- get model ;;
  let mvp := mul pv m in
  call (glMatrixMode GL_MODELVIEW) ;;
  call (glLoadMatrixf (astype_f4 mvp)) ;;
  draw_axes ;;
  draw_cube.

Definition update_rotation : M unit :=
  a <- get angle ;;
  modify (set_angle (a + 1.0)) ;;
  a <- get angle ;;
  (if 360.0 <=? a then modify (set_angle (a - 360.0)) else ret tt) ;;
  a <- get angle ;;
  modify (set_model (from_y_rotation (radians a))) ;;
  call update.

Definition add_geometry {A : Type} (vertices : A) : M unit :=
  ret tt.

(** *** The event loop

    Qt delivers the timer's timeout to [update_rotation] and calls the
    three OpenGL hooks; an exception raised in a handler is reported and
    the loop goes on with the widget as the handler left it. *)

Inductive Event : Type :=
| Timeout
| InitializeGL
| Resize (w h : Z)
| Paint
| AddGeometry (vertices : list float).

Definition handle (e : Event) : M unit :=
  match e with
  | Timeout => update_rotation
  | InitializeGL => initializeGL
  | Resize w h => resizeGL w h
  | Paint => paintGL
  | AddGeometry v => add_geometry v
  end.

Fixpoint run (evs : list Event) (s : GLWidget) : GLWidget :=
  match evs with
  | [] => s
  | e :: rest => run rest (state_of (handle e s))
  end.

(** [n] timeouts in a row. *)
Fixpoint ticks (n : nat) : M unit :=
  match n with
  | O => ret tt
  | S n' => update_rotation ;; ticks n'
  end.

(** *** Summaries of the methods, for the statements below *)

(** A computation that leaves the widget as it found it, whether it
    returns or raises. *)
Definition readonly {A} (m : M A) : Prop :=
  forall s, state_of (m s) = s.

(** A computation all of whose calls, up to its return or its raise,
    satisfy [ok]. *)
Definition logs {A} (ok : Call -> Prop) (m : M A) : Prop :=
  forall s, Forall ok (log_of (m s)).

(** The widget after one [update_rotation]. *)
Definition rotated (s : GLWidget) : GLWidget :=
  {| angle := next_angle (angle s);
     proj := proj s;
     view := view s;
     model := from_y_rotation (radians (next_angle (angle s)));
     axes := axes s;
     cube := cube s |}.

(** The aspect ratio [resizeGL] passes on when it gets that far. *)
Definition aspect_of (w h : Z) : float :=
  if (h =? 0)%Z then 1 else SF2Prim (quotient w h).

(** Whether [resizeGL w h] returns: it divides only by a height that is
    not zero, and then the quotient must be in the range of a float. *)
Definition resize_returns (w h : Z) : bool :=
  (h =? 0)%Z || negb (overflows w h).

(** The widget after [resizeGL w h], returned or raised. *)
Definition resized (w h : Z) (s : GLWidget) : GLWidget :=
  if resize_returns w h
  then set_proj (Some (perspective_projection 45.0 (aspect_of w h) 0.1 100.0)) s
  else s.

(** *** Summaries of a run and of a drawing loop *)

(** How many timeouts a run holds. *)
Fixpoint timeouts (evs : list Event) : nat :=
  match evs with
  | [] => 0
  | Timeout :: rest => S (timeouts rest)
  | _ :: rest => timeouts rest
  end.

(** The size of the last resize of a run that returned, if the run
    holds one. *)
Definition last_resize (evs : list Event) : option (Z * Z) :=
  fold_left
    (fun acc e =>
       match e with
       | Resize w h => if resize_returns w h then Some (w, h) else acc
       | _ => acc
       end)
    evs None.

(** The events whose handler assigns to a field of the widget. *)
Definition changes_state (e : Event) : bool :=
  match e with
  | Timeout | Resize _ _ => true
  | InitializeGL | Paint | AddGeometry _ => false
  end.

(** The calls one iteration of [draw_axes] makes at offset [i], and one
    iteration of [draw_cube], when every index is in range. *)
Definition segment_calls (arr : list float) (i : nat) : list Call :=
  [glColor3f (nth (i + 3) arr 0) (nth (i + 4) arr 0) (nth (i + 5) arr 0);
   glVertex3f (nth i arr 0) (nth (i + 1) arr 0) (nth (i + 2) arr 0);
   glColor3f (nth (i + 9) arr 0) (nth (i + 10) arr 0) (nth (i + 11) arr 0);
   glVertex3f (nth (i + 6) arr 0) (nth (i + 7) arr 0) (nth (i + 8) arr 0)].

Definition quad_calls (arr : list float) (i : nat) : list Call :=
  flat_map
    (fun j : nat =>
       let vertex_offset := (i + j * 6)%nat in
       [glColor3f (nth (vertex_offset + 3) arr 0) (nth (vertex_offset + 4) arr 0)
                  (nth (vertex_offset + 5) arr 0);
        glVertex3f (nth vertex_offset arr 0) (nth (vertex_offset + 1) arr 0)
                   (nth (vertex_offset + 2) arr 0)])
    (range 0 4 1).

(** A computation that can return only when [needed] holds. *)
Definition ok_needs {A} (needed : Prop) (m : M A) : Prop :=
  forall s a s' l, m s = Ok a s' l -> needed.

(** A computation that raises nothing but [e]. *)
Definition raises_only {A} (e : PyExn) (m : M A) : Prop :=
  forall s e' s' l, m s = Raise e' s' l -> e' = e.

(** *** Reading a call log *)

Definition is_vertex (c : Call) : bool :=
  match c with glVertex3f _ _ _ => true | _ => false end.

Definition is_matrix_call (c : Call) : bool :=
  match c with glLoadMatrixf _ | glMatrixMode _ => true | _ => false end.

(** The calls a drawing loop makes between [glBegin] and [glEnd]. *)
Definition in_block (c : Call) : bool :=
  match c with glColor3f _ _ _ | glVertex3f _ _ _ => true | _ => false end.

(** The vertices submitted, each with the colour current at its
    submission; [cur] is the colour current at the start of the log. *)
Fixpoint submitted (cur : Vec3) (log : list Call) : list Vertex :=
  match log with
  | [] => []
  | glColor3f r g b :: rest => submitted (r, g, b) rest
  | glVertex3f x y z :: rest =>
      {| position := (x, y, z); color := cur |} :: submitted cur rest
  | _ :: rest => submitted cur rest
  end.

(** The matrices loaded, in order. *)
Fixpoint loaded (log : list Call) : list Matrix44 :=
  match log with
  | [] => []
  | glLoadMatrixf m :: rest => m :: loaded rest
  | _ :: rest => loaded rest
  end.

End Widget.

Arguments Raise {P A} e s log.

Notation "x <- m ;; k" := (bind m (fun x => k))
  (at level 61, m at next level, right associativity).
Notation "m ;; k" := (bind m (fun _ => k))
  (at level 61, right associativity).

(** ** A symbolic matrix library

    An instance of [Pyrr] that builds the expression of each matrix and
    computes nothing: closed runs of the widget are evaluated over it. *)

Inductive MatrixExpr : Type :=
| Identity
| LookAt (eye target up : list float)
| PerspectiveProjection (fovy aspect near far : float)
| FromYRotation (theta : float)
| Mul (a b : MatrixExpr)
| AsType_f4 (m : MatrixExpr).

(** Degrees to radians, with pi / 180 rounded to binary64. *)
Definition deg2rad (x : float) : float := x * 0.017453292519943295.

#[export] Instance SymbolicPyrr : Pyrr := {|
  Matrix44 := MatrixExpr;
  identity := Identity;
  look_at := LookAt;
  perspective_projection := PerspectiveProjection;
  from_y_rotation := FromYRotation;
  mul := Mul;
  astype_f4 := AsType_f4;
  radians := deg2rad
|}.

(** The symbolic library compares two matrices only where no trigonometry
    is needed: the identity and the rotations by the angle zero are close
    to one another, up to any tolerance that is not negative. *)
Definition is_identity (m : MatrixExpr) : bool :=
  match m with
  | Identity => true
  | FromYRotation theta => (theta =? 0)
  | _ => false
  end.

Definition symbolic_allclose (eps : float) (a b : MatrixExpr) : bool :=
  (0 <=? eps) && is_identity a && is_identity b.

Lemma symbolic_from_y_rotation_0 (eps : float) :
  (0 <=? eps) = true ->
  symbolic_allclose eps (FromYRotation 0.0) Identity = true.
Proof. intros H. unfold symbolic_allclose. rewrite H. reflexivity. Qed.

#[export] Instance SymbolicPyrrLaws : PyrrLaws SymbolicPyrr := {|
  allclose := symbolic_allclose;
  radians_0 := eq_refl;
  from_y_rotation_0 := symbolic_from_y_rotation_0
|}.

(** The widget as constructed, over the symbolic library, and two more
    widgets for concrete runs. *)
Definition widget0 : GLWidget := __init__ (P := SymbolicPyrr).

Definition widget_at (a : float) : GLWidget := set_angle a widget0.

Definition widget_resized : GLWidget := run [Resize 1024 768; Timeout] widget0.

(** ** Binary64 numbers as integers

    Every finite binary64 number is a multiple of the least positive one,
    2^-1074; [val] and [SFval] give that multiple. *)

Definition val (m : positive) (e : Z) : Z := (Z.pos m * 2 ^ (e + 1074))%Z.

Definition SFval (x : spec_float) : option Z :=
  match x with
  | S754_zero _ => Some 0%Z
  | S754_finite s m e => Some (cond_Zopp s (val m e))
  | _ => None
  end.

(** The place of the rational [N / D] between the integers [m] and
    [m + 1], as rounding keeps it: [m] is its integer part, and [l] says
    whether it is [m] itself or lies below, at or above [m + 1/2]. *)
Definition located (N D m : Z) (l : location) : Prop :=
  (0 < D
   /\ 0 <= N - m * D < D
   /\ l = if N - m * D =? 0 then loc_Exact
          else loc_Inexact (2 * (N - m * D) ?= D))%Z.

(** The specifications of [0.0], [1.0] and [360.0]. *)
Definition SF_zero : spec_float := S754_zero false.
Definition SF_one : spec_float := S754_finite false 4503599627370496 (-52).
Definition SF_360 : spec_float := S754_finite false 6333186975989760 (-44).

(** 2^1074, the number of units in 1. *)
Definition unit_scale : Q := inject_Z (2 ^ 1074).

(** * Properties *)

(** ** Rational arithmetic: [spec_mod] below 720 *)

Lemma Qfloor_unique (x : Q) (k : Z) :
  (inject_Z k <= x)%Q -> (x < inject_Z (k + 1))%Q -> Qfloor x = k.
Proof.
  intros Hlo Hhi.
  pose proof (Qfloor_le x) as Hfl.
  pose proof (Qlt_floor x) as Hlt.
  assert (H1 : (Qfloor x < k + 1)%Z).
  { rewrite Zlt_Qlt. eapply Qle_lt_trans; eassumption. }
  assert (H2 : (k < Qfloor x + 1)%Z).
  { rewrite Zlt_Qlt. eapply Qle_lt_trans; eassumption. }
  lia.
Qed.

Lemma spec_mod_small (x : Q) : (0 <= x -> x < 360 -> spec_mod x 360 == x)%Q.
Proof.
  intros Hlo Hhi. unfold spec_mod.
  rewrite (@Qfloor_unique (x / 360) 0).
  - change (inject_Z 0) with 0%Q. lra.
  - change (inject_Z 0) with 0%Q. apply Qle_shift_div_l; lra.
  - change (inject_Z (0 + 1)) with 1%Q. apply Qlt_shift_div_r; lra.
Qed.

Lemma spec_mod_once (x : Q) :
  (360 <= x -> x < 720 -> spec_mod x 360 == x - 360)%Q.
Proof.
  intros Hlo Hhi. unfold spec_mod.
  rewrite (@Qfloor_unique (x / 360) 1).
  - change (inject_Z 1) with 1%Q. lra.
  - change (inject_Z 1) with 1%Q. apply Qle_shift_div_l; lra.
  - change (inject_Z (1 + 1)) with 2%Q. apply Qlt_shift_div_r; lra.
Qed.

(** ** The angle update on binary64

    The kernel's float operations are specified by the functions of
    [SpecFloat] on mantissa and exponent.  From those: rounding a sum moves
    it by less than one unit in the last place, comparing two canonical
    numbers compares their values, and a difference that fits the mantissa
    is exact.  Hence one step of the angle keeps [0, 360) and computes
    [mod 360]. *)

Section Binary64.

Local Open Scope Z_scope.
Unset Implicit Arguments.

Lemma digits2_size (p : positive) : digits2_pos p = Pos.size p.
Proof. induction p; simpl; congruence. Qed.

Lemma digits2_bounds (p : positive) :
  2 ^ (Z.pos (digits2_pos p) - 1) <= Z.pos p < 2 ^ Z.pos (digits2_pos p).
Proof.
  rewrite digits2_size. split.
  - pose proof (Pos.size_le p) as H.
    assert (H' : 2 ^ Z.pos (Pos.size p) <= 2 * Z.pos p).
    { rewrite <- Pos2Z.inj_pow. change (2 * Z.pos p) with (Z.pos p~0). exact H. }
    replace (Z.pos (Pos.size p)) with (Z.pos (Pos.size p) - 1 + 1) in H' by lia.
    rewrite Z.pow_add_r in H' by lia. lia.
  - pose proof (Pos.size_gt p) as H.
    rewrite <- Pos2Z.inj_pow. exact H.
Qed.

(** Shifting right [n] times divides the mantissa by [2^n]. *)
Lemma shr_1_m (mrs : shr_record) :
  0 <= shr_m mrs -> shr_m (shr_1 mrs) = shr_m mrs / 2.
Proof.
  destruct mrs as [m r s]. simpl. intros Hm.
  destruct m as [| p | p]; [reflexivity | | lia].
  destruct p as [p | p |]; simpl.
  - rewrite Pos2Z.inj_xI. apply Z.div_unique with 1; lia.
  - rewrite Pos2Z.inj_xO. apply Z.div_unique with 0; lia.
  - reflexivity.
Qed.

Lemma iter_shr_1_m (n : positive) : forall mrs : shr_record,
  0 <= shr_m mrs ->
  shr_m (iter_pos shr_1 n mrs) = shr_m mrs / 2 ^ Z.pos n.
Proof.
  induction n as [n IH | n IH |]; intros mrs Hm; simpl iter_pos.
  - assert (H1 : 0 <= shr_m (shr_1 mrs)).
    { rewrite shr_1_m by exact Hm. apply Z.div_pos; lia. }
    assert (H2 : 0 <= shr_m (iter_pos shr_1 n (shr_1 mrs))).
    { rewrite IH by exact H1. apply Z.div_pos; [exact H1 | lia]. }
    rewrite IH by exact H2. rewrite IH by exact H1. rewrite shr_1_m by exact Hm.
    rewrite !Z.div_div by lia.
    f_equal. rewrite Pos2Z.inj_xI.
    replace (2 * Z.pos n + 1) with (Z.succ (2 * Z.pos n)) by lia.
    rewrite Z.pow_succ_r by lia. rewrite Z.pow_twice_r. reflexivity.
  - assert (H2 : 0 <= shr_m (iter_pos shr_1 n mrs)).
    { rewrite IH by exact Hm. apply Z.div_pos; [exact Hm | lia]. }
    rewrite IH by exact H2. rewrite IH by exact Hm.
    rewrite Z.div_div by lia.
    f_equal. rewrite (Pos2Z.inj_xO n). rewrite Z.pow_twice_r. reflexivity.
  - apply shr_1_m. exact Hm.
Qed.

Lemma iter_xO (d m : positive) :
  Z.pos (Pos.iter xO m d) = Z.pos m * 2 ^ Z.pos d.
Proof.
  induction d as [| d IH] using Pos.peano_ind.
  - simpl. lia.
  - rewrite Pos.iter_succ. rewrite (Pos2Z.inj_xO (Pos.iter xO m d)), IH.
    rewrite Pos2Z.inj_succ. rewrite Z.pow_succ_r by lia. lia.
Qed.

Lemma fexp_eq (e : Z) : fexp prec emax e = Z.max (e - 53) (-1074).
Proof. reflexivity. Qed.

Lemma shr_record_of_loc_m (m : Z) (l : location) :
  shr_m (shr_record_of_loc m l) = m.
Proof. destruct l as [| []]; reflexivity. Qed.

(** Shifting to the exponent [fexp] asks for: the mantissa is divided by a
    power of two and the exponent grows by as much. *)
Lemma shr_fexp_spec (m e : Z) (l : location) :
  0 <= m ->
  exists n,
    0 <= n
    /\ snd (shr_fexp prec emax m e l) = e + n
    /\ snd (shr_fexp prec emax m e l) = Z.max e (fexp prec emax (Zdigits2 m + e))
    /\ shr_m (fst (shr_fexp prec emax m e l)) = m / 2 ^ n.
Proof.
  intros Hm. unfold shr_fexp, shr.
  destruct (fexp prec emax (Zdigits2 m + e) - e) as [| p | p] eqn:E.
  - exists 0. cbn [fst snd]. rewrite shr_record_of_loc_m.
    repeat split; try lia. now rewrite Z.div_1_r.
  - exists (Z.pos p). cbn [fst snd].
    rewrite iter_shr_1_m by (rewrite shr_record_of_loc_m; exact Hm).
    rewrite shr_record_of_loc_m.
    repeat split; lia.
  - exists 0. cbn [fst snd]. rewrite shr_record_of_loc_m.
    repeat split; try lia. now rewrite Z.div_1_r.
Qed.

Lemma round_nearest_even_bounds (m : Z) (l : location) :
  m <= round_nearest_even m l <= m + 1.
Proof.
  destruct l as [| []]; simpl; try lia.
  destruct (Z.even m); lia.
Qed.

Lemma Zdigits2_bounds (m : Z) :
  0 < m -> 2 ^ (Zdigits2 m - 1) <= m < 2 ^ Zdigits2 m.
Proof.
  destruct m as [| p | p]; try lia. intros _. apply digits2_bounds.
Qed.

Lemma Zdigits2_nonneg (m : Z) : 0 <= Zdigits2 m.
Proof. destruct m; simpl; lia. Qed.

(** An upper bound on the digits from an upper bound on the number. *)
Lemma Zdigits2_le (m k : Z) :
  0 <= m -> 0 <= k -> m < 2 ^ k -> Zdigits2 m <= k.
Proof.
  intros Hm0 Hk Hm.
  destruct (Z_lt_le_dec 0 m) as [Hpos | Hneg].
  - destruct (Zdigits2_bounds m Hpos) as [Hlo _].
    assert (H : 2 ^ (Zdigits2 m - 1) < 2 ^ k) by lia.
    apply Z.pow_lt_mono_r_iff in H; lia.
  - assert (m = 0) by lia. subst m. simpl. exact Hk.
Qed.

Lemma binary_round_aux_spec (sx : bool) (mx ex : Z) :
  0 < mx ->
  exists m3 e3,
    0 <= m3
    /\ ex <= e3
    /\ (m3 - 1) * 2 ^ (e3 - ex) <= mx
    /\ mx < (m3 + 1) * 2 ^ (e3 - ex)
    /\ e3 <= Z.max ex (Z.max (Zdigits2 mx + ex - 52) (-1074))
    /\ binary_round_aux prec emax sx mx ex loc_Exact =
       match m3 with
       | Z0 => S754_zero sx
       | Z.pos m =>
           if e3 <=? emax - prec then S754_finite sx m e3 else S754_infinity sx
       | Z.neg _ => S754_nan
       end.
Proof.
  intros Hmx. unfold binary_round_aux.
  destruct (shr_fexp_spec mx ex loc_Exact) as (n1 & Hn1 & He1 & He1' & Hm1); [lia |].
  destruct (shr_fexp prec emax mx ex loc_Exact) as [mrs1 e1].
  cbn [fst snd] in He1, He1', Hm1.
  set (m1 := shr_m mrs1) in *.
  pose proof (round_nearest_even_bounds m1 (loc_of_shr_record mrs1)) as Hm2.
  set (m2 := round_nearest_even m1 (loc_of_shr_record mrs1)) in *.
  assert (Hm1pos : 0 <= m1).
  { rewrite Hm1. apply Z.div_pos; lia. }
  destruct (shr_fexp_spec m2 e1 loc_Exact) as (n2 & Hn2 & He2 & He2' & Hm3); [lia |].
  destruct (shr_fexp prec emax m2 e1 loc_Exact) as [mrs2 e2].
  cbn [fst snd] in He2, He2', Hm3.
  set (m3 := shr_m mrs2) in *.
  exists m3, e2.
  assert (HA : 0 < 2 ^ n1) by (apply Z.pow_pos_nonneg; lia).
  assert (HB : 0 < 2 ^ n2) by (apply Z.pow_pos_nonneg; lia).
  assert (Hpow : 2 ^ (e2 - ex) = 2 ^ n1 * 2 ^ n2).
  { replace (e2 - ex) with (n1 + n2) by lia. apply Z.pow_add_r; lia. }
  assert (Hd1 : 2 ^ n1 * m1 <= mx < 2 ^ n1 * (m1 + 1)).
  { rewrite Hm1. split.
    - apply Z.mul_div_le; lia.
    - rewrite Z.mul_add_distr_l, Z.mul_1_r.
      pose proof (Z.mod_pos_bound mx (2 ^ n1) HA).
      pose proof (Z.div_mod mx (2 ^ n1)). lia. }
  assert (Hd2 : 2 ^ n2 * m3 <= m2 < 2 ^ n2 * (m3 + 1)).
  { rewrite Hm3. split.
    - apply Z.mul_div_le; lia.
    - rewrite Z.mul_add_distr_l, Z.mul_1_r.
      pose proof (Z.mod_pos_bound m2 (2 ^ n2) HB).
      pose proof (Z.div_mod m2 (2 ^ n2)). lia. }
  assert (Hm3pos : 0 <= m3).
  { rewrite Hm3. apply Z.div_pos; lia. }
  split; [exact Hm3pos |].
  split; [lia |].
  split; [rewrite Hpow; nia |].
  split; [rewrite Hpow; nia |].
  split; [| reflexivity].
  (* the exponent *)
  rewrite He2', He1'. rewrite !fexp_eq.
  assert (Hdig : Zdigits2 m2 + e1 <= Z.max (Zdigits2 mx + ex + 1) (-1074 - 52 + 53)).
  { destruct (Z_le_gt_dec n1 (Zdigits2 mx)) as [Hle | Hgt].
    - assert (Hlt : m2 < 2 ^ (Zdigits2 mx - n1 + 1)).
      { destruct (Zdigits2_bounds mx Hmx) as [_ Hup].
        assert (Hup' : mx < 2 ^ (Zdigits2 mx - n1) * 2 ^ n1).
        { rewrite <- Z.pow_add_r by lia.
          now replace (Zdigits2 mx - n1 + n1) with (Zdigits2 mx) by lia. }
        rewrite Z.pow_add_r by lia. change (2 ^ 1) with 2.
        assert (0 < 2 ^ (Zdigits2 mx - n1)) by (apply Z.pow_pos_nonneg; lia).
        nia. }
      apply Zdigits2_le in Hlt; lia.
    - assert (Hz : m1 = 0).
      { rewrite Hm1. apply Z.div_small. split; [lia |].
        destruct (Zdigits2_bounds mx Hmx) as [_ Hup].
        assert (2 ^ Zdigits2 mx <= 2 ^ n1).
        { apply Z.pow_le_mono_r; lia. }
        lia. }
      assert (Hlt : m2 < 2 ^ 1) by (change (2 ^ 1) with 2; lia).
      apply Zdigits2_le in Hlt; try lia.
      pose proof (Zdigits2_nonneg mx).
      rewrite fexp_eq in He1'. lia. }
  rewrite fexp_eq in He1'. lia.
Qed.

Lemma digits2_iter_xO (d m : positive) :
  Z.pos (digits2_pos (Pos.iter xO m d)) = Z.pos (digits2_pos m) + Z.pos d.
Proof.
  induction d as [| d IH] using Pos.peano_ind.
  - simpl. lia.
  - rewrite Pos.iter_succ. cbn [digits2_pos]. lia.
Qed.

Lemma shl_align_spec (mx : positive) (ex ex' : Z) :
  snd (shl_align mx ex ex') = Z.min ex ex'
  /\ Z.pos (fst (shl_align mx ex ex'))
     = Z.pos mx * 2 ^ (ex - snd (shl_align mx ex ex'))
  /\ Z.pos (digits2_pos (fst (shl_align mx ex ex'))) + snd (shl_align mx ex ex')
     = Z.pos (digits2_pos mx) + ex.
Proof.
  unfold shl_align.
  destruct (ex' - ex) as [| d | d] eqn:E; cbn [fst snd].
  - repeat split; try lia. rewrite Z.sub_diag. simpl. lia.
  - repeat split; try lia. rewrite Z.sub_diag. simpl. lia.
  - repeat split; try lia.
    + rewrite iter_xO. f_equal. f_equal. lia.
    + rewrite digits2_iter_xO. lia.
Qed.

Lemma binary_normalize_spec (M : positive) (ez : Z) :
  -1074 <= ez ->
  exists m3 e3,
    0 <= m3
    /\ -1074 <= e3
    /\ (m3 - 1) * 2 ^ (e3 + 1074) <= val M ez
    /\ val M ez < (m3 + 1) * 2 ^ (e3 + 1074)
    /\ e3 <= Z.max ez (Z.max (Z.pos (digits2_pos M) + ez - 52) (-1074))
    /\ binary_normalize prec emax (Z.pos M) ez false =
       match m3 with
       | Z0 => S754_zero false
       | Z.pos m =>
           if e3 <=? emax - prec then S754_finite false m e3
           else S754_infinity false
       | Z.neg _ => S754_nan
       end.
Proof.
  intros Hez. unfold binary_normalize, binary_round.
  destruct (shl_align_spec M ez (fexp prec emax (Z.pos (digits2_pos M) + ez)))
    as (He & Hm & Hd).
  destruct (shl_align M ez (fexp prec emax (Z.pos (digits2_pos M) + ez)))
    as [mz ez'].
  cbn [fst snd] in He, Hm, Hd. rewrite fexp_eq in He.
  destruct (binary_round_aux_spec false (Z.pos mz) ez')
    as (m3 & e3 & Hm3 & He3 & Hlo & Hhi & Hexp & Heq); [lia |].
  exists m3, e3.
  assert (Hval : val M ez = Z.pos mz * 2 ^ (ez' + 1074)).
  { unfold val. rewrite Hm. rewrite <- Z.mul_assoc.
    rewrite <- Z.pow_add_r by lia. f_equal. f_equal. lia. }
  assert (Hpow : 2 ^ (e3 + 1074) = 2 ^ (e3 - ez') * 2 ^ (ez' + 1074)).
  { rewrite <- Z.pow_add_r by lia. f_equal. lia. }
  assert (HP : 0 < 2 ^ (ez' + 1074)) by (apply Z.pow_pos_nonneg; lia).
  split; [exact Hm3 |].
  split; [lia |].
  split; [rewrite Hval, Hpow; nia |].
  split; [rewrite Hval, Hpow; nia |].
  split; [| exact Heq].
  cbn [Zdigits2] in Hexp. lia.
Qed.

Lemma bounded_canonical (m : positive) (e : Z) :
  bounded prec emax m e = true ->
  e = Z.max (Z.pos (digits2_pos m) + e - 53) (-1074).
Proof.
  unfold bounded, canonical_mantissa. intros H.
  apply andb_true_iff in H. destruct H as [H _].
  apply Z.eqb_eq in H. rewrite fexp_eq in H. lia.
Qed.

Lemma val_pos (m : positive) (e : Z) : -1074 <= e -> 0 < val m e.
Proof.
  intros He. unfold val.
  assert (0 < 2 ^ (e + 1074)) by (apply Z.pow_pos_nonneg; lia). lia.
Qed.

Lemma val_lt_exponent (m1 m2 : positive) (e1 e2 : Z) :
  bounded prec emax m1 e1 = true -> bounded prec emax m2 e2 = true ->
  e1 < e2 -> val m1 e1 < val m2 e2.
Proof.
  intros H1 H2 Hlt.
  apply bounded_canonical in H1, H2.
  destruct (digits2_bounds m1) as [_ Hup1].
  destruct (digits2_bounds m2) as [Hlo2 _].
  assert (Hd1 : Z.pos (digits2_pos m1) <= 53) by lia.
  assert (Hd2 : Z.pos (digits2_pos m2) = 53) by lia.
  rewrite Hd2 in Hlo2. change (2 ^ (53 - 1)) with (2 ^ 52) in Hlo2.
  assert (Hm1 : Z.pos m1 < 2 ^ 53).
  { eapply Z.lt_le_trans; [exact Hup1 |]. apply Z.pow_le_mono_r; lia. }
  unfold val.
  assert (HP1 : 0 < 2 ^ (e1 + 1074)) by (apply Z.pow_pos_nonneg; lia).
  assert (HP : 2 ^ (e2 + 1074) = 2 ^ (e2 - e1 - 1) * (2 * 2 ^ (e1 + 1074))).
  { rewrite <- Z.pow_succ_r by lia. rewrite <- Z.pow_add_r by lia.
    f_equal. lia. }
  assert (HQ : 0 < 2 ^ (e2 - e1 - 1)) by (apply Z.pow_pos_nonneg; lia).
  rewrite HP.
  change (2 ^ 53) with 9007199254740992 in Hm1.
  change (2 ^ 52) with 4503599627370496 in Hlo2.
  set (P := 2 ^ (e1 + 1074)) in *. set (Q := 2 ^ (e2 - e1 - 1)) in *.
  assert (Z.pos m1 * P < 4503599627370496 * (2 * P)) by nia.
  assert (4503599627370496 * (2 * P) <= Z.pos m2 * (2 * P)) by nia.
  assert (Z.pos m2 * (2 * P) <= Q * (Z.pos m2 * (2 * P))) by nia.
  lia.
Qed.

Lemma SFcompare_val (m1 m2 : positive) (e1 e2 : Z) :
  bounded prec emax m1 e1 = true -> bounded prec emax m2 e2 = true ->
  SFcompare (S754_finite false m1 e1) (S754_finite false m2 e2)
  = Some (val m1 e1 ?= val m2 e2).
Proof.
  intros H1 H2. cbn [SFcompare]. f_equal.
  destruct (Z.compare_spec e1 e2) as [E | L | G].
  - subst e2. unfold val.
    assert (HP : 0 < 2 ^ (e1 + 1074)).
    { apply Z.pow_pos_nonneg; [lia |].
      apply bounded_canonical in H1. lia. }
    change (Pos.compare_cont Eq m1 m2) with (m1 ?= m2)%positive.
    destruct (Pos.compare_spec m1 m2) as [E | L | G]; symmetry.
    + subst m2. apply Z.compare_refl.
    + apply Z.compare_lt_iff. nia.
    + apply Z.compare_gt_iff. nia.
  - symmetry. apply Z.compare_lt_iff. now apply val_lt_exponent.
  - symmetry. apply Z.compare_gt_iff. now apply val_lt_exponent.
Qed.

Lemma val_shl_align (m : positive) (e ez : Z) :
  ez <= e -> -1074 <= ez -> val (fst (shl_align m e ez)) ez = val m e.
Proof.
  intros Hle Hez.
  destruct (shl_align_spec m e ez) as (He & Hm & _).
  unfold val. rewrite Hm, He. rewrite Z.min_r by exact Hle.
  rewrite <- Z.mul_assoc. rewrite <- Z.pow_add_r by lia.
  f_equal. f_equal. lia.
Qed.

Lemma val_add (a b : positive) (e : Z) : val (a + b) e = val a e + val b e.
Proof. unfold val. rewrite Pos2Z.inj_add. lia. Qed.

Lemma Prim2SF_constants :
  Prim2SF 0 = SF_zero /\ Prim2SF 1 = SF_one /\ Prim2SF 360 = SF_360.
Proof. repeat split. Qed.

Lemma val_one : val 4503599627370496 (-52) = 2 ^ 1074.
Proof. reflexivity. Qed.

Lemma val_360 : val 6333186975989760 (-44) = 360 * 2 ^ 1074.
Proof. reflexivity. Qed.

Lemma pow_le_1031 (e : Z) : e <= -43 -> 2 ^ (e + 1074) * 2 ^ 43 <= 2 ^ 1074.
Proof.
  intros He.
  destruct (Z_lt_le_dec (e + 1074) 0) as [Hneg | Hpos].
  - rewrite Z.pow_neg_r by lia. rewrite Z.mul_0_l. apply Z.pow_nonneg. lia.
  - rewrite <- Z.pow_add_r by lia. apply Z.pow_le_mono_r; lia.
Qed.

(** [X + 1] for a finite positive [X] below 360: within one unit in the
    last place of the sum, and no larger than 2^-43 of it. *)
Lemma SFadd_one (m : positive) (e : Z) :
  bounded prec emax m e = true ->
  val m e < 360 * 2 ^ 1074 ->
  exists m3 e3,
    0 <= m3 /\ -1074 <= e3 /\ e3 <= -43
    /\ (m3 - 1) * 2 ^ (e3 + 1074) <= val m e + 2 ^ 1074
    /\ val m e + 2 ^ 1074 < (m3 + 1) * 2 ^ (e3 + 1074)
    /\ SF64add (S754_finite false m e) SF_one =
       match m3 with
       | Z0 => S754_zero false
       | Z.pos p => S754_finite false p e3
       | Z.neg _ => S754_nan
       end.
Proof.
  intros Hb Hlt.
  pose proof (bounded_canonical m e Hb) as Hcan.
  assert (He : -1074 <= e) by lia.
  unfold SF64add, SF_one, SFadd. cbv zeta.
  set (ez := Z.min e (-52)).
  assert (Hez : -1074 <= ez) by (unfold ez; lia).
  assert (Hez' : ez <= -52) by (unfold ez; lia).
  pose proof (val_shl_align m e ez ltac:(unfold ez; lia) Hez) as Ha.
  pose proof (val_shl_align 4503599627370496 (-52) ez Hez' Hez) as Hb1.
  rewrite val_one in Hb1.
  set (a := fst (shl_align m e ez)) in *.
  set (b := fst (shl_align 4503599627370496 (-52) ez)) in *.
  cbn [cond_Zopp Z.add].
  destruct (binary_normalize_spec (a + b) ez Hez)
    as (m3 & e3 & Hm3 & He3 & Hlo & Hhi & Hexp & Heq).
  rewrite val_add, Ha, Hb1 in Hlo, Hhi.
  exists m3, e3.
  assert (HT : 0 < 2 ^ 1074) by (apply Z.pow_pos_nonneg; lia).
  assert (Hdig : Z.pos (digits2_pos (a + b)) + ez <= 9).
  { assert (Hlt' : Z.pos (a + b) < 2 ^ (9 - ez)).
    { assert (Hv : val (a + b) ez < 2 ^ (9 - ez) * 2 ^ (ez + 1074)).
      { rewrite val_add, Ha, Hb1. rewrite <- Z.pow_add_r by lia.
        replace (9 - ez + (ez + 1074)) with (9 + 1074) by lia.
        rewrite Z.pow_add_r by lia. change (2 ^ 9) with 512. lia. }
      unfold val in Hv.
      assert (0 < 2 ^ (ez + 1074)) by (apply Z.pow_pos_nonneg; lia).
      nia. }
    apply (Zdigits2_le (Z.pos (a + b))) in Hlt'; [| lia | lia].
    cbn [Zdigits2] in Hlt'. lia. }
  assert (He3' : e3 <= -43) by lia.
  split; [exact Hm3 |]. split; [exact He3 |]. split; [exact He3' |].
  split; [exact Hlo |]. split; [exact Hhi |].
  rewrite Heq. destruct m3 as [| p | p]; try reflexivity.
  replace (e3 <=? emax - prec) with true; [reflexivity |].
  symmetry. apply Z.leb_le. change (emax - prec) with 971. lia.
Qed.


Lemma binary_round_aux_exact (sx : bool) (mx : positive) (ex : Z) :
  fexp prec emax (Z.pos (digits2_pos mx) + ex) <= ex ->
  ex <= 971 ->
  binary_round_aux prec emax sx (Z.pos mx) ex loc_Exact = S754_finite sx mx ex.
Proof.
  intros Hf He.
  assert (Hs : forall l,
             shr_fexp prec emax (Z.pos mx) ex l = (shr_record_of_loc (Z.pos mx) l, ex)).
  { intros l. unfold shr_fexp, shr. cbn [Zdigits2].
    destruct (fexp prec emax (Z.pos (digits2_pos mx) + ex) - ex) eqn:E;
      [reflexivity | lia | reflexivity]. }
  unfold binary_round_aux. rewrite Hs. cbn [shr_record_of_loc shr_m loc_of_shr_record round_nearest_even].
  rewrite Hs. cbn [shr_record_of_loc shr_m].
  replace (ex <=? emax - prec) with true; [reflexivity |].
  symmetry. apply Z.leb_le. change (emax - prec) with 971. exact He.
Qed.

(** A number of at most 53 digits is represented exactly. *)
Lemma binary_normalize_exact (M : positive) (ez : Z) :
  -1074 <= ez ->
  Z.pos (digits2_pos M) <= 53 ->
  Z.pos (digits2_pos M) + ez <= 1024 ->
  exists m' e',
    binary_normalize prec emax (Z.pos M) ez false = S754_finite false m' e'
    /\ -1074 <= e'
    /\ val m' e' = val M ez.
Proof.
  intros Hez Hd Hsum. unfold binary_normalize, binary_round.
  destruct (shl_align_spec M ez (fexp prec emax (Z.pos (digits2_pos M) + ez)))
    as (He & Hm & Hdig).
  pose proof (val_shl_align M ez (fexp prec emax (Z.pos (digits2_pos M) + ez))) as Hv.
  destruct (shl_align M ez (fexp prec emax (Z.pos (digits2_pos M) + ez)))
    as [mz ez'].
  cbn [fst snd] in He, Hm, Hdig, Hv. rewrite fexp_eq in He, Hv.
  assert (Hez' : ez' = Z.max (Z.pos (digits2_pos M) + ez - 53) (-1074)) by lia.
  exists mz, ez'.
  split.
  - apply binary_round_aux_exact; [rewrite fexp_eq | ]; lia.
  - split; [lia |]. rewrite Hez'. apply Hv; lia.
Qed.

(** [Y - 360] is exact for a finite [Y] between 360 and 362. *)
Lemma SFsub_360 (p : positive) (e3 : Z) :
  bounded prec emax p e3 = true ->
  360 * 2 ^ 1074 <= val p e3 ->
  val p e3 < 362 * 2 ^ 1074 ->
  (val p e3 = 360 * 2 ^ 1074
   /\ SF64sub (S754_finite false p e3) SF_360 = S754_zero false)
  \/ (exists r er,
        SF64sub (S754_finite false p e3) SF_360 = S754_finite false r er
        /\ -1074 <= er
        /\ val r er = val p e3 - 360 * 2 ^ 1074).
Proof.
  intros Hb Hge Hlt.
  pose proof (bounded_canonical p e3 Hb) as Hcan.
  assert (He : -1074 <= e3) by lia.
  assert (HT : 0 < 2 ^ 1074) by (apply Z.pow_pos_nonneg; lia).
  assert (He3 : -52 <= e3).
  { destruct (Z_lt_le_dec e3 (-52)) as [Hsmall | Hok]; [exfalso | exact Hok].
    destruct (digits2_bounds p) as [_ Hup].
    assert (Hp : Z.pos p < 2 ^ 53).
    { eapply Z.lt_le_trans; [exact Hup |]. apply Z.pow_le_mono_r; lia. }
    assert (HP : 2 ^ 53 * 2 ^ (e3 + 1074) <= 2 ^ 1074).
    { rewrite <- Z.pow_add_r by lia. apply Z.pow_le_mono_r; lia. }
    assert (0 < 2 ^ (e3 + 1074)) by (apply Z.pow_pos_nonneg; lia).
    unfold val in Hge. nia. }
  unfold SF64sub, SF_360, SFsub. cbv zeta.
  set (ez := Z.min e3 (-44)).
  assert (Hez : -52 <= ez) by (unfold ez; lia).
  assert (Hez' : ez <= -44) by (unfold ez; lia).
  pose proof (val_shl_align p e3 ez ltac:(unfold ez; lia) ltac:(lia)) as Ha.
  pose proof (val_shl_align 6333186975989760 (-44) ez Hez' ltac:(lia)) as Hb1.
  rewrite val_360 in Hb1.
  set (a := fst (shl_align p e3 ez)) in *.
  set (b := fst (shl_align 6333186975989760 (-44) ez)) in *.
  cbn [cond_Zopp].
  assert (HP : 0 < 2 ^ (ez + 1074)) by (apply Z.pow_pos_nonneg; lia).
  assert (HD : (Z.pos a - Z.pos b) * 2 ^ (ez + 1074) = val p e3 - 360 * 2 ^ 1074).
  { rewrite <- Ha, <- Hb1. unfold val. ring. }
  destruct (Z.pos a - Z.pos b) as [| d | d] eqn:ED.
  - left. split; [lia | reflexivity].
  - right.
    assert (Hdig : Z.pos (digits2_pos d) <= 1 - ez).
    { assert (Hlt' : Z.pos d < 2 ^ (1 - ez)).
      { assert (Hv' : Z.pos d * 2 ^ (ez + 1074) < 2 ^ (1 - ez) * 2 ^ (ez + 1074)).
        { rewrite <- Z.pow_add_r by lia.
          replace (1 - ez + (ez + 1074)) with (1 + 1074) by lia.
          rewrite (Z.pow_add_r 2 1 1074) by lia. change (2 ^ 1) with 2. lia. }
        nia. }
      apply (Zdigits2_le (Z.pos d)) in Hlt'; [| lia | lia].
      exact Hlt'. }
    destruct (binary_normalize_exact d ez ltac:(lia) ltac:(lia) ltac:(lia))
      as (r & er & HR & Her & Hval).
    exists r, er. split; [exact HR |]. split; [exact Her |].
    rewrite Hval. exact HD.
  - exfalso. assert (Z.neg d * 2 ^ (ez + 1074) < 0) by nia. lia.
Qed.

(** One step of the angle, on specifications. *)
Lemma step_SF (X : spec_float) :
  valid_binary X = true ->
  SFleb SF_zero X = true ->
  SFltb X SF_360 = true ->
  valid_binary (SF64add X SF_one) = true ->
  valid_binary (SF64sub (SF64add X SF_one) SF_360) = true ->
  exists u,
    SFval (SF64add X SF_one) = Some u
    /\ 0 <= u
    /\ ((360 * 2 ^ 1074 <= u
         /\ u < 720 * 2 ^ 1074
         /\ SFleb SF_360 (SF64add X SF_one) = true
         /\ SFval (SF64sub (SF64add X SF_one) SF_360) = Some (u - 360 * 2 ^ 1074)
         /\ SFleb SF_zero (SF64sub (SF64add X SF_one) SF_360) = true
         /\ SFltb (SF64sub (SF64add X SF_one) SF_360) SF_360 = true)
        \/ (u < 360 * 2 ^ 1074
            /\ SFleb SF_360 (SF64add X SF_one) = false
            /\ SFleb SF_zero (SF64add X SF_one) = true
            /\ SFltb (SF64add X SF_one) SF_360 = true)).
Proof.
  intros HvX H0 H360 HvY HvR.
  assert (Hb360 : bounded prec emax 6333186975989760 (-44) = true) by reflexivity.
  assert (HT : 0 < 2 ^ 1074) by (apply Z.pow_pos_nonneg; lia).
  destruct X as [s | s | | s m e].
  - exists (2 ^ 1074).
    destruct s; (split; [reflexivity |]); (split; [lia |]); right;
      (split; [lia |]); repeat split.
  - destruct s; discriminate.
  - discriminate.
  - destruct s; [discriminate |].
    cbn [valid_binary] in HvX.
    unfold SFltb, SF_360 in H360. rewrite (SFcompare_val _ _ _ _ HvX Hb360) in H360.
    rewrite val_360 in H360.
    destruct (Z.compare_spec (val m e) (360 * 2 ^ 1074)) as [_ | Hlt | _];
      try discriminate.
    destruct (SFadd_one m e HvX Hlt)
      as (m3 & e3 & Hm3 & He3 & He3' & Hlo & Hhi & HY).
    rewrite HY in *.
    destruct m3 as [| p | p]; [| | lia].
    { exists 0. split; [reflexivity |]. split; [lia |]. right.
      split; [lia |]. repeat split. }
    cbn [valid_binary] in HvY.
    pose proof (pow_le_1031 e3 He3') as HU.
    change (2 ^ 43) with 8796093022208 in HU.
    assert (HUpos : 0 < 2 ^ (e3 + 1074)) by (apply Z.pow_pos_nonneg; lia).
    assert (Hup : val p e3 < 362 * 2 ^ 1074).
    { unfold val. set (U := 2 ^ (e3 + 1074)) in *. set (T := 2 ^ 1074) in *.
      lia. }
    assert (Hc : SFleb SF_360 (S754_finite false p e3)
                 = match 360 * 2 ^ 1074 ?= val p e3 with
                   | Lt | Eq => true
                   | Gt => false
                   end).
    { unfold SFleb, SF_360. rewrite (SFcompare_val _ _ _ _ Hb360 HvY).
      rewrite val_360. reflexivity. }
    exists (val p e3). split; [reflexivity |].
    split; [pose proof (val_pos p e3 He3); lia |].
    destruct (Z_le_gt_dec (360 * 2 ^ 1074) (val p e3)) as [Hge | Hgt].
    + left. split; [exact Hge |]. split; [lia |].
      split.
      { rewrite Hc.
        destruct (Z.compare_spec (360 * 2 ^ 1074) (val p e3)); [reflexivity .. | lia]. }
      destruct (SFsub_360 p e3 HvY Hge Hup)
        as [[Heq HR] | (r & er & HR & Her & Hval)]; rewrite HR in *.
      * split; [cbn [SFval]; f_equal; lia |]. split; reflexivity.
      * cbn [valid_binary] in HvR.
        split; [cbn [SFval cond_Zopp]; f_equal; exact Hval |].
        split; [reflexivity |].
        unfold SFltb, SF_360. rewrite (SFcompare_val _ _ _ _ HvR Hb360).
        rewrite val_360.
        assert (E : (val r er ?= 360 * 2 ^ 1074) = Lt)
          by (apply Z.compare_lt_iff; lia).
        rewrite E. reflexivity.
    + right. split; [lia |].
      split.
      { rewrite Hc.
        destruct (Z.compare_spec (360 * 2 ^ 1074) (val p e3)); [lia | lia | reflexivity]. }
      split; [reflexivity |].
      unfold SFltb, SF_360. rewrite (SFcompare_val _ _ _ _ HvY Hb360).
      rewrite val_360.
      assert (E : (val p e3 ?= 360 * 2 ^ 1074) = Lt)
        by (apply Z.compare_lt_iff; lia).
      rewrite E. reflexivity.
Qed.


Lemma unit_scale_pos : (0 < unit_scale)%Q.
Proof.
  unfold unit_scale. change 0%Q with (inject_Z 0). rewrite <- Zlt_Qlt.
  apply Z.pow_pos_nonneg; lia.
Qed.

Lemma SF2Q_SFval (x : spec_float) (v : Z) :
  valid_binary x = true ->
  SFval x = Some v ->
  exists q, SF2Q x = Some q /\ (q * unit_scale == inject_Z v)%Q.
Proof.
  intros Hv Hval. destruct x as [s | s | | s m e]; try discriminate.
  - exists 0%Q. cbn in Hval. injection Hval as <-. split; [reflexivity |].
    change (inject_Z 0) with 0%Q. lra.
  - cbn [valid_binary] in Hv. apply bounded_canonical in Hv.
    cbn [SFval] in Hval. injection Hval as <-.
    exists (inject_Z (cond_Zopp s (Z.pos m)) * 2 ^ e)%Q.
    split; [reflexivity |].
    assert (E : (inject_Z (val m e) == inject_Z (Z.pos m) * 2 ^ e * unit_scale)%Q).
    { unfold val, unit_scale. rewrite inject_Z_mult.
      rewrite !Zpower_Qpower by lia.
      rewrite Qpower_plus by (intro H; discriminate H).
      change (inject_Z 2) with 2%Q. ring. }
    destruct s; cbn [cond_Zopp].
    + transitivity (- (inject_Z (Z.pos m) * 2 ^ e * unit_scale))%Q.
      * change (inject_Z (- Z.pos m)) with (- inject_Z (Z.pos m))%Q. ring.
      * rewrite <- E. rewrite inject_Z_opp. reflexivity.
    + symmetry. exact E.
Qed.

Theorem next_angle_in_range (f : float) :
  in_range f = true -> in_range (next_angle f) = true.
Proof.
  unfold in_range, next_angle. intros H.
  apply andb_true_iff in H. destruct H as [H0 H360].
  rewrite leb_spec in H0. rewrite ltb_spec in H360.
  pose proof (Prim2SF_valid f) as HvX.
  pose proof (Prim2SF_valid (f + 1)) as HvY.
  pose proof (Prim2SF_valid (f + 1 - 360)) as HvR.
  rewrite sub_spec in HvR. rewrite add_spec in HvY, HvR.
  destruct (step_SF (Prim2SF f) HvX H0 H360 HvY HvR)
    as (u & Hu & Hu0 & [(_ & _ & Hc & _ & Hlo & Hhi) | (_ & Hc & Hlo & Hhi)]);
    cbv zeta; rewrite (leb_spec 360 (f + 1)), add_spec;
    change (Prim2SF 360) with SF_360; change (Prim2SF 1) with SF_one;
    rewrite Hc; rewrite leb_spec, ltb_spec.
  - rewrite sub_spec, add_spec.
    apply andb_true_iff. split; [exact Hlo | exact Hhi].
  - rewrite add_spec.
    apply andb_true_iff. split; [exact Hlo | exact Hhi].
Qed.

Theorem next_angle_mod (f : float) :
  in_range f = true ->
  exists q q',
    to_Q (f + 1.0) = Some q
    /\ to_Q (next_angle f) = Some q'
    /\ (q' == spec_mod q 360)%Q.
Proof.
  unfold in_range, next_angle, to_Q. intros H.
  apply andb_true_iff in H. destruct H as [H0 H360].
  rewrite leb_spec in H0. rewrite ltb_spec in H360.
  pose proof (Prim2SF_valid f) as HvX.
  pose proof (Prim2SF_valid (f + 1)) as HvY.
  pose proof (Prim2SF_valid (f + 1 - 360)) as HvR.
  rewrite sub_spec in HvR. rewrite add_spec in HvY, HvR.
  pose proof unit_scale_pos as HT.
  destruct (step_SF (Prim2SF f) HvX H0 H360 HvY HvR)
    as (u & Hu & Hu0 & [(Hge & Hlt & Hc & HR & _) | (Hlt & Hc & _)]);
    destruct (SF2Q_SFval _ u HvY Hu) as (q & Hq & Hqu);
    cbv zeta; rewrite (leb_spec 360 (f + 1)), add_spec;
    change (Prim2SF 360) with SF_360; change (Prim2SF 1) with SF_one;
    rewrite Hc.
  - destruct (SF2Q_SFval _ _ HvR HR) as (q' & Hq' & Hqu').
    exists q, q'. rewrite sub_spec, !add_spec.
    change (Prim2SF 360) with SF_360; change (Prim2SF 1) with SF_one.
    split; [exact Hq |]. split; [exact Hq' |].
    assert (Hsub : (q' == q - 360)%Q).
    { apply (Qmult_inj_r _ _ unit_scale); [lra |].
      rewrite Hqu'. unfold Z.sub.
      rewrite inject_Z_plus, inject_Z_opp, inject_Z_mult. rewrite <- Hqu.
      fold unit_scale. change (inject_Z 360) with 360%Q. ring. }
    assert (Hq360 : (360 <= q)%Q).
    { apply (Qmult_le_r _ _ unit_scale HT). rewrite Hqu.
      unfold unit_scale. change 360%Q with (inject_Z 360).
      rewrite <- inject_Z_mult. rewrite <- Zle_Qle. exact Hge. }
    assert (Hq720 : (q < 720)%Q).
    { apply (Qmult_lt_r _ _ unit_scale HT). rewrite Hqu.
      unfold unit_scale. change 720%Q with (inject_Z 720).
      rewrite <- inject_Z_mult. rewrite <- Zlt_Qlt. exact Hlt. }
    rewrite Hsub. symmetry. apply spec_mod_once; assumption.
  - exists q, q. rewrite !add_spec.
    split; [exact Hq |]. split; [exact Hq |].
    assert (Hq0 : (0 <= q)%Q).
    { apply (Qmult_le_r _ _ unit_scale HT). rewrite Hqu.
      rewrite Qmult_0_l. change 0%Q with (inject_Z 0).
      rewrite <- Zle_Qle. exact Hu0. }
    assert (Hq360 : (q < 360)%Q).
    { apply (Qmult_lt_r _ _ unit_scale HT). rewrite Hqu.
      unfold unit_scale. change 360%Q with (inject_Z 360).
      rewrite <- inject_Z_mult. rewrite <- Zlt_Qlt. exact Hlt. }
    symmetry. apply spec_mod_small; assumption.
Qed.

Set Implicit Arguments.

End Binary64.

(** ** What each method does to the widget *)

Section Facts.

Context `{P : Pyrr}.

Lemma readonly_ret A (a : A) : readonly (ret a).
Proof. intros s. reflexivity. Qed.

Lemma readonly_raise A (e : PyExn) : readonly (raise (A := A) e).
Proof. intros s. reflexivity. Qed.

Lemma readonly_call (c : Call) : readonly (call c).
Proof. intros s. reflexivity. Qed.

Lemma readonly_get A (field : GLWidget -> A) : readonly (get field).
Proof. intros s. reflexivity. Qed.

Lemma readonly_bind A B (m : M A) (k : A -> M B) :
  readonly m -> (forall a, readonly (k a)) -> readonly (bind m k).
Proof.
  intros Hm Hk s. unfold bind.
  specialize (Hm s).
  destruct (m s) as [a s1 l1 | e s1 l1]; simpl in Hm; subst s1.
  - specialize (Hk a s).
    destruct (k a s) as [b s2 l2 | e s2 l2]; simpl in Hk; subst s2; reflexivity.
  - reflexivity.
Qed.

Lemma readonly_for_ (items : list nat) (body : nat -> M unit) :
  (forall i, readonly (body i)) -> readonly (for_ items body).
Proof.
  intros Hbody. induction items as [| i rest IH]; simpl.
  - apply readonly_ret.
  - apply readonly_bind; [apply Hbody | intros _; exact IH].
Qed.

Lemma readonly_getitem (arr : list float) (i : nat) : readonly (getitem arr i).
Proof.
  unfold getitem. destruct (nth_error arr i).
  - apply readonly_ret.
  - apply readonly_raise.
Qed.

Lemma readonly_mul_obj (a : option Matrix44) (b : Matrix44) :
  readonly (mul_obj a b).
Proof.
  destruct a; simpl; [apply readonly_ret | apply readonly_raise].
Qed.

Ltac readonly_step :=
  first
    [ apply readonly_bind; [| intros ?]
    | apply readonly_for_; intros ?
    | apply readonly_call
    | apply readonly_get
    | apply readonly_getitem
    | apply readonly_mul_obj
    | apply readonly_ret ].

Lemma readonly_draw_axes : readonly draw_axes.
Proof. unfold draw_axes. repeat readonly_step. Qed.

Lemma readonly_draw_cube : readonly draw_cube.
Proof. unfold draw_cube. repeat readonly_step. Qed.

Lemma readonly_paintGL : readonly paintGL.
Proof. unfold paintGL. repeat readonly_step. Qed.

Lemma readonly_initializeGL : readonly initializeGL.
Proof. unfold initializeGL. repeat readonly_step. Qed.

Lemma logs_ret A (ok : Call -> Prop) (a : A) : logs ok (ret a).
Proof. intros s. constructor. Qed.

Lemma logs_raise A (ok : Call -> Prop) (e : PyExn) : logs ok (raise (A := A) e).
Proof. intros s. constructor. Qed.

Lemma logs_get A (ok : Call -> Prop) (field : GLWidget -> A) :
  logs ok (get field).
Proof. intros s. constructor. Qed.

Lemma logs_call (ok : Call -> Prop) (c : Call) : ok c -> logs ok (call c).
Proof. intros Hc s. repeat constructor. exact Hc. Qed.

Lemma logs_bind A B (ok : Call -> Prop) (m : M A) (k : A -> M B) :
  logs ok m -> (forall a, logs ok (k a)) -> logs ok (bind m k).
Proof.
  intros Hm Hk s. unfold bind.
  specialize (Hm s).
  destruct (m s) as [a s1 l1 | e s1 l1]; simpl in Hm.
  - specialize (Hk a s1).
    destruct (k a s1) as [b s2 l2 | e s2 l2]; simpl in Hk |- *;
      apply Forall_app; split; assumption.
  - exact Hm.
Qed.

Lemma logs_for_ (ok : Call -> Prop) (items : list nat) (body : nat -> M unit) :
  (forall i, logs ok (body i)) -> logs ok (for_ items body).
Proof.
  intros Hbody. induction items as [| i rest IH]; simpl.
  - apply logs_ret.
  - apply logs_bind; [apply Hbody | intros _; exact IH].
Qed.

Lemma logs_getitem (ok : Call -> Prop) (arr : list float) (i : nat) :
  logs ok (getitem arr i).
Proof.
  unfold getitem. destruct (nth_error arr i).
  - apply logs_ret.
  - apply logs_raise.
Qed.

Ltac logs_step :=
  first
    [ apply logs_bind; [| intros ?]
    | apply logs_for_; intros ?
    | apply logs_call; reflexivity
    | apply logs_get
    | apply logs_getitem
    | apply logs_ret ].

(** Whatever the tables hold, drawing makes no matrix call. *)
Lemma draws_no_matrix_call :
  logs (fun c => is_matrix_call c = false) (draw_axes ;; draw_cube).
Proof. unfold draw_axes, draw_cube. repeat logs_step. Qed.

(** What [paintGL] logs, whatever the tables hold: with a projection, the
    clear, the matrix mode, the load of the combined matrix and then the
    drawing; without one, the clear and an [OperandError]. *)
Lemma paintGL_log (s : GLWidget) :
  match proj s with
  | Some p =>
      log_of (paintGL s)
      = [glClear [GL_COLOR_BUFFER_BIT; GL_DEPTH_BUFFER_BIT];
         glMatrixMode GL_MODELVIEW;
         glLoadMatrixf (astype_f4 (mul (mul p (view s)) (model s)))]
        ++ log_of ((draw_axes ;; draw_cube) s)
  | None =>
      paintGL s
      = Raise OperandError s [glClear [GL_COLOR_BUFFER_BIT; GL_DEPTH_BUFFER_BIT]]
  end.
Proof.
  destruct (proj s) as [p |] eqn:E.
  - unfold paintGL.
    cbv [bind call get mul_obj ret]. rewrite E.
    destruct (draw_axes s) as [[] s1 l1 | e s1 l1]; [| reflexivity].
    destruct (draw_cube s1) as [[] s2 l2 | e s2 l2]; reflexivity.
  - unfold paintGL. cbv [bind call get mul_obj ret raise]. rewrite E.
    reflexivity.
Qed.

Lemma update_rotation_run (s : GLWidget) :
  update_rotation s = Ok tt (rotated s) [update].
Proof.
  unfold update_rotation, rotated, next_angle, bind, get, modify, call, ret.
  cbn. destruct (360.0 <=? angle s + 1.0); reflexivity.
Qed.

(** [resizeGL] returns unless the division overflows; then it raises after
    [glViewport] and before the assignment. *)
Lemma resizeGL_run (w h : Z) (s : GLWidget) :
  resize_returns w h = true ->
  resizeGL w h s =
  Ok tt (set_proj (Some (perspective_projection 45.0 (aspect_of w h) 0.1 100.0)) s)
     [glViewport 0 0 w h].
Proof.
  unfold resize_returns, overflows, resizeGL, aspect_of, truediv.
  unfold bind, call, modify, ret, raise.
  destruct (h =? 0)%Z; [reflexivity |].
  cbn [negb orb]. destruct (quotient w h); intros H; try discriminate H;
    reflexivity.
Qed.

Lemma resizeGL_overflow (w h : Z) (s : GLWidget) :
  resize_returns w h = false ->
  resizeGL w h s = Raise OverflowError s [glViewport 0 0 w h].
Proof.
  unfold resize_returns, overflows, resizeGL, aspect_of, truediv.
  unfold bind, call, modify, ret, raise.
  destruct (h =? 0)%Z; [discriminate |].
  cbn [negb orb]. destruct (quotient w h); intros H; try discriminate H;
    reflexivity.
Qed.

Lemma resizeGL_state (w h : Z) (s : GLWidget) :
  state_of (resizeGL w h s) = resized w h s.
Proof.
  unfold resized. destruct (resize_returns w h) eqn:E.
  - now rewrite resizeGL_run.
  - now rewrite resizeGL_overflow.
Qed.

Lemma handle_state (e : Event) (s : GLWidget) :
  state_of (handle e s) =
  match e with
  | Timeout => rotated s
  | Resize w h => resized w h s
  | _ => s
  end.
Proof.
  destruct e; simpl.
  - now rewrite update_rotation_run.
  - apply readonly_initializeGL.
  - apply resizeGL_state.
  - apply readonly_paintGL.
  - reflexivity.
Qed.

(** A resize touches nothing but the projection. *)
Lemma resized_frame (w h : Z) (s : GLWidget) :
  angle (resized w h s) = angle s
  /\ view (resized w h s) = view s
  /\ model (resized w h s) = model s
  /\ axes (resized w h s) = axes s
  /\ cube (resized w h s) = cube s.
Proof. unfold resized. destruct (resize_returns w h); repeat split. Qed.

(** A property of the widget that every handler keeps holds along every
    run of the event loop. *)
Lemma run_invariant (I : GLWidget -> Prop) :
  (forall e s, I s -> I (state_of (handle e s))) ->
  forall evs s, I s -> I (run evs s).
Proof.
  intros Hstep evs. induction evs as [| e rest IH]; intros s Hs; simpl.
  - exact Hs.
  - apply IH, Hstep, Hs.
Qed.

Lemma run_app (evs1 evs2 : list Event) (s : GLWidget) :
  run (evs1 ++ evs2) s = run evs2 (run evs1 s).
Proof.
  revert s. induction evs1 as [| e rest IH]; intros s; simpl.
  - reflexivity.
  - apply IH.
Qed.

Lemma run_view (evs : list Event) (s : GLWidget) : view (run evs s) = view s.
Proof.
  apply (run_invariant (fun s' => view s' = view s)); [| reflexivity].
  intros e s' Hs'. rewrite handle_state. destruct e; try exact Hs'.
  now rewrite (proj1 (proj2 (resized_frame w h s'))).
Qed.

Lemma run_tables (evs : list Event) (s : GLWidget) :
  axes (run evs s) = axes s /\ cube (run evs s) = cube s.
Proof.
  apply (run_invariant (fun s' => axes s' = axes s /\ cube s' = cube s));
    [| split; reflexivity].
  intros e s' Hs'. rewrite handle_state. destruct e; try exact Hs'.
  destruct (resized_frame w h s') as (_ & _ & _ & Ha & Hc).
  now rewrite Ha, Hc.
Qed.

Lemma run_angle_range (evs : list Event) (s : GLWidget) :
  in_range (angle s) = true -> in_range (angle (run evs s)) = true.
Proof.
  apply (run_invariant (fun s' => in_range (angle s') = true)).
  intros e s' Hs'. rewrite handle_state.
  destruct e; try exact Hs'.
  - cbn [rotated angle]. now apply next_angle_in_range.
  - now rewrite (proj1 (resized_frame w h s')).
Qed.

Lemma run_proj_set (evs : list Event) (s : GLWidget) :
  proj s <> None -> proj (run evs s) <> None.
Proof.
  apply (run_invariant (fun s' => proj s' <> None)).
  intros e s' Hs'. rewrite handle_state.
  destruct e; try exact Hs'.
  unfold resized. destruct (resize_returns w h); [discriminate | exact Hs'].
Qed.

(** [n] timeouts never raise; they leave the widget [rotated] [n] times. *)
Lemma ticks_run (n : nat) (s : GLWidget) :
  ticks n s = Ok tt (state_of (ticks n s)) (repeat update n).
Proof.
  revert s. induction n as [| n IH]; intros s; simpl.
  - reflexivity.
  - unfold bind. rewrite update_rotation_run.
    rewrite (IH (rotated s)). reflexivity.
Qed.

Lemma ticks_succ (n : nat) (s : GLWidget) :
  state_of (ticks (S n) s) = state_of (ticks n (rotated s)).
Proof.
  simpl. unfold bind. rewrite update_rotation_run.
  rewrite (ticks_run n (rotated s)). reflexivity.
Qed.

Lemma ticks_angle_range (n : nat) (s : GLWidget) :
  in_range (angle s) = true -> in_range (angle (state_of (ticks n s))) = true.
Proof.
  revert s. induction n as [| n IH]; intros s Hs.
  - exact Hs.
  - rewrite ticks_succ. apply IH. cbn [rotated angle].
    now apply next_angle_in_range.
Qed.

End Facts.

(** ** The claims *)

Section Claims.

Context `{P : Pyrr}.

(** C8.  For every argument, of any type, [add_geometry] returns without
    raising, makes no call to OpenGL or Qt and leaves the widget as it was:
    in particular the axes and cube tables and their vertex counts are
    unchanged. *)
Theorem add_geometry_noop (A : Type) (buffer : A) (s : GLWidget) :
  add_geometry buffer s = Ok tt s []
  /\ axes (state_of (add_geometry buffer s)) = axes s
  /\ cube (state_of (add_geometry buffer s)) = cube s
  /\ length (interleaved (vertices (axes (state_of (add_geometry buffer s)))))
     = length (interleaved (vertices (axes s)))
  /\ length (interleaved (vertices (cube (state_of (add_geometry buffer s)))))
     = length (interleaved (vertices (cube s))).
Proof. repeat split. Qed.

(** C9.  [__init__] sets the view to [look_at] with eye (3,3,3), target
    the origin and up +Y, and no operation changes it: [update_rotation],
    [resizeGL], [paintGL], [initializeGL] and [add_geometry] each end,
    returning or raising, with the view they started with, so the view is
    the constructed one after every run of the event loop. *)
Theorem view_never_mutated :
  view __init__ = look_at [3.0; 3.0; 3.0] [0.0; 0.0; 0.0] [0.0; 1.0; 0.0]
  /\ (forall s, view (state_of (update_rotation s)) = view s)
  /\ (forall w h s, view (state_of (resizeGL w h s)) = view s)
  /\ (forall s, view (state_of (paintGL s)) = view s)
  /\ (forall s, view (state_of (initializeGL s)) = view s)
  /\ (forall (A : Type) (v : A) s, view (state_of (add_geometry v s)) = view s)
  /\ (forall evs,
        view (run evs __init__)
        = look_at [3.0; 3.0; 3.0] [0.0; 0.0; 0.0] [0.0; 1.0; 0.0]).
Proof.
  split; [reflexivity |].
  split; [intros s; now rewrite update_rotation_run |].
  split; [intros w h s; rewrite resizeGL_state; apply resized_frame |].
  split; [intros s; now rewrite readonly_paintGL |].
  split; [intros s; now rewrite readonly_initializeGL |].
  split; [reflexivity |].
  intros evs. now rewrite run_view.
Qed.

(** C3, as the code has it.  With height zero [resizeGL] performs no
    division: for every width it returns, having stored the projection
    [perspective_projection(45.0, 1, 0.1, 100.0)].  With a height other
    than zero it computes [w / h], Python's quotient of the two integers:
    when that is in the range of a float, [resizeGL] returns, having stored
    [perspective_projection(45.0, w / h, 0.1, 100.0)]; when it is not,
    [w / h] raises [OverflowError] after [glViewport] and the widget,
    projection included, is as it was.  The quotient is in range for every
    width below 2^1023 in magnitude.  [ZeroDivisionError] is never raised,
    the only call is [glViewport], and nothing but the projection is ever
    assigned. *)
Theorem resizeGL_aspect (w : Z) (s : GLWidget) :
  (resizeGL w 0 s = Ok tt (state_of (resizeGL w 0 s)) [glViewport 0 0 w 0]
   /\ proj (state_of (resizeGL w 0 s))
      = Some (perspective_projection 45.0 1 0.1 100.0))
  /\ (forall h : Z, h <> 0%Z -> overflows w h = false ->
        resizeGL w h s = Ok tt (state_of (resizeGL w h s)) [glViewport 0 0 w h]
        /\ proj (state_of (resizeGL w h s))
           = Some (perspective_projection 45.0 (SF2Prim (quotient w h)) 0.1 100.0))
  /\ (forall h : Z, h <> 0%Z -> overflows w h = true ->
        resizeGL w h s = Raise OverflowError s [glViewport 0 0 w h])
  /\ (forall h : Z,
        (exists s', resizeGL w h s = Ok tt s' [glViewport 0 0 w h])
        \/ resizeGL w h s = Raise OverflowError s [glViewport 0 0 w h])
  /\ (forall h : Z,
        angle (state_of (resizeGL w h s)) = angle s
        /\ view (state_of (resizeGL w h s)) = view s
        /\ model (state_of (resizeGL w h s)) = model s
        /\ axes (state_of (resizeGL w h s)) = axes s
        /\ cube (state_of (resizeGL w h s)) = cube s).
Proof.
  split.
  { rewrite resizeGL_run by reflexivity. split; reflexivity. }
  split.
  { intros h Hh Hov.
    assert (Hr : resize_returns w h = true).
    { unfold resize_returns. rewrite Hov. apply orb_true_r. }
    rewrite resizeGL_run by exact Hr. cbn [state_of set_proj proj].
    unfold aspect_of.
    destruct (Z.eqb_spec h 0) as [E | _]; [contradiction |].
    split; reflexivity. }
  split.
  { intros h Hh Hov. apply resizeGL_overflow.
    unfold resize_returns. rewrite Hov.
    destruct (Z.eqb_spec h 0) as [E | _]; [contradiction | reflexivity]. }
  split.
  { intros h. destruct (resize_returns w h) eqn:Hr.
    - left. eexists. apply resizeGL_run, Hr.
    - right. apply resizeGL_overflow, Hr. }
  intros h. rewrite resizeGL_state. apply resized_frame.
Qed.

(** C5.  [resizeGL(800, 600)] stores the projection built with field of
    view 45.0, aspect ratio 800/600, near plane 0.1 and far plane 100.0.
    The ratio is the float 1.3333333333333333, which is within 2^-53 of
    4/3. *)
Theorem resizeGL_800_600 (s : GLWidget) :
  proj (state_of (resizeGL 800 600 s))
  = Some (perspective_projection 45.0 (Z2float 800 / Z2float 600) 0.1 100.0)
  /\ resizeGL 800 600 s
     = Ok tt (set_proj (proj (state_of (resizeGL 800 600 s))) s)
          [glViewport 0 0 800 600]
  /\ Z2float 800 = 800.0 /\ Z2float 600 = 600.0
  /\ Z2float 800 / Z2float 600 = 1.3333333333333333
  /\ match to_Q (Z2float 800 / Z2float 600) with
     | Some q => (Qabs (q - (4 # 3)) <= 1 # 9007199254740992)%Q
     | None => False
     end.
Proof.
  rewrite resizeGL_run by reflexivity.
  repeat split.
  vm_compute. discriminate.
Qed.

(** C10.  From an angle in [0, 360) one [update_rotation] returns with an
    angle in [0, 360) again, having added 1.0 and subtracted 360.0 at most
    once; this holds for every binary64 angle, with the rounding of the
    two operations.  The interval is therefore kept by every run of the
    event loop and by any number of timeouts, and the initial angle 0.0
    lies in it. *)
Theorem update_rotation_keeps_range (s : GLWidget) :
  in_range (angle s) = true ->
  update_rotation s = Ok tt (state_of (update_rotation s)) [update]
  /\ in_range (angle (state_of (update_rotation s))) = true
  /\ (angle (state_of (update_rotation s)) = angle s + 1.0
      \/ angle (state_of (update_rotation s)) = angle s + 1.0 - 360.0)
  /\ (forall n, in_range (angle (state_of (ticks n s))) = true)
  /\ (forall evs, in_range (angle (run evs s)) = true)
  /\ in_range (angle __init__) = true.
Proof.
  intros Hs.
  rewrite update_rotation_run. cbn [state_of rotated angle].
  split; [reflexivity |].
  split; [now apply next_angle_in_range |].
  split.
  { unfold next_angle. cbv zeta.
    destruct (360.0 <=? angle s + 1.0); [right | left]; reflexivity. }
  split; [intros n; now apply ticks_angle_range |].
  split; [intros evs; now apply run_angle_range |].
  reflexivity.
Qed.

(** C1, as the code has it.  Every [update_rotation], from any widget,
    returns with the angle [a + 1.0], less 360.0 when that sum is at least
    360.0 (one conditional subtraction), with the model
    [from_y_rotation(radians(angle))] for the new angle and with the rest
    of the widget as it was; any number of calls in a row return.  When the
    previous angle [a] lies in [0, 360) the new angle is
    [(a + 1.0) mod 360], the sum being the float sum, and after any number
    of further calls the angle lies in [0, 360). *)
Theorem update_rotation_advances (s : GLWidget) (n : nat) :
  update_rotation s = Ok tt (state_of (update_rotation s)) [update]
  /\ angle (state_of (update_rotation s))
     = (if 360.0 <=? angle s + 1.0 then angle s + 1.0 - 360.0
        else angle s + 1.0)
  /\ angle (state_of (update_rotation s)) = next_angle (angle s)
  /\ model (state_of (update_rotation s))
     = from_y_rotation (radians (angle (state_of (update_rotation s))))
  /\ (proj (state_of (update_rotation s)) = proj s
      /\ view (state_of (update_rotation s)) = view s
      /\ axes (state_of (update_rotation s)) = axes s
      /\ cube (state_of (update_rotation s)) = cube s)
  /\ ticks (S n) s = Ok tt (state_of (ticks (S n) s)) (repeat update (S n))
  /\ (in_range (angle s) = true ->
      (exists q q',
          to_Q (angle s + 1.0) = Some q
          /\ to_Q (angle (state_of (update_rotation s))) = Some q'
          /\ (q' == spec_mod q 360)%Q)
      /\ in_range (angle (state_of (update_rotation s))) = true
      /\ in_range (angle (state_of (ticks (S n) s))) = true).
Proof.
  rewrite update_rotation_run. cbn [state_of rotated angle model proj view axes cube].
  split; [reflexivity |].
  split; [reflexivity |].
  split; [reflexivity |].
  split; [reflexivity |].
  split; [repeat split |].
  split; [apply ticks_run |].
  intros Hs.
  split; [now apply next_angle_mod |].
  split; [now apply next_angle_in_range |].
  now apply ticks_angle_range.
Qed.

(** C4.  From angle 0.0, 360 calls of [update_rotation] return with the
    angle 0.0 again, exactly, and with the model
    [from_y_rotation(radians(0.0))], the rotation by no angle; after [k]
    calls, for [k] below 360, the angle is [k].  By the library's laws at
    the angle zero that model is the identity up to every tolerance; one
    call earlier the angle is 359.0, not zero. *)
Theorem full_turn (L : PyrrLaws P) (s : GLWidget) :
  angle s = 0.0 ->
  ticks 360 s = Ok tt (state_of (ticks 360 s)) (repeat update 360)
  /\ angle (state_of (ticks 360 s)) = 0.0
  /\ model (state_of (ticks 360 s)) = from_y_rotation (radians 0.0)
  /\ (forall eps, (0 <=? eps) = true ->
                  allclose eps (model (state_of (ticks 360 s))) identity = true)
  /\ map (fun k => angle (state_of (ticks k s))) (seq 0 360)
     = map (fun k => Z2float (Z.of_nat k)) (seq 0 360).
Proof.
  intros Hs.
  split; [apply ticks_run |].
  destruct s as [a pr v m ax cu]. cbn in Hs. subst a.
  assert (Hm : model (state_of (ticks 360
                 {| angle := 0.0; proj := pr; view := v; model := m;
                    axes := ax; cube := cu |}))
               = from_y_rotation (radians 0.0))
    by (vm_compute; reflexivity).
  split; [vm_compute; reflexivity |].
  split; [exact Hm |].
  split; [| vm_compute; reflexivity].
  intros eps Heps. rewrite Hm, radians_0. now apply from_y_rotation_0.
Qed.

(** C2.  In every widget the event loop reaches with a projection [p],
    [paintGL] returns and its calls are, in order: the clear, the matrix
    mode, one [glLoadMatrixf] of [(p * view * model).astype('f4')], the
    calls of [draw_axes], the calls of [draw_cube].  No vertex is submitted
    before that load, no other matrix call follows it, and the six axes
    vertices and the twenty-four cube vertices are all submitted after it:
    both geometries are drawn under the one transform.  A projection is
    present from the first [resizeGL] that returns on.  In any widget at
    all, [paintGL] with a projection starts with the same three calls and
    makes no other matrix call, and without one it raises before it loads
    or submits anything. *)
Theorem paintGL_one_transform (evs : list Event) (p : Matrix44) :
  proj (run evs __init__) = Some p ->
  let s := run evs __init__ in
  let mvp := mul (mul p (view s)) (model s) in
  let before := [glClear [GL_COLOR_BUFFER_BIT; GL_DEPTH_BUFFER_BIT];
                 glMatrixMode GL_MODELVIEW] in
  let after := log_of (draw_axes s) ++ log_of (draw_cube s) in
  paintGL s = Ok tt s (before ++ glLoadMatrixf (astype_f4 mvp) :: after)
  /\ loaded (log_of (paintGL s)) = [astype_f4 mvp]
  /\ existsb is_vertex before = false
  /\ existsb is_matrix_call after = false
  /\ (forall cur,
        submitted cur after
        = interleaved axes_vertices ++ interleaved cube_vertices)
  /\ (forall evs1 w h evs2,
        resize_returns w h = true ->
        proj (run (evs1 ++ Resize w h :: evs2) __init__) <> None)
  /\ (forall s' : GLWidget,
        match proj s' with
        | Some p' =>
            exists draws,
              log_of (paintGL s')
              = before
                ++ glLoadMatrixf (astype_f4 (mul (mul p' (view s')) (model s')))
                   :: draws
              /\ Forall (fun c => is_matrix_call c = false) draws
        | None => paintGL s' = Raise OperandError s' [glClear [GL_COLOR_BUFFER_BIT; GL_DEPTH_BUFFER_BIT]]
        end).
Proof.
  intros Hp s mvp before after.
  destruct (run_tables evs __init__) as [Hax Hcu].
  fold s in Hp, Hax, Hcu. subst mvp before after.
  destruct s as [a pr v m ax cu]. cbn in Hp, Hax, Hcu. subst pr ax cu.
  split; [reflexivity |].
  split; [reflexivity |].
  split; [reflexivity |].
  split; [reflexivity |].
  split; [intros cur; reflexivity |].
  split.
  - intros evs1 w h evs2 Hr. rewrite run_app. cbn [run].
    apply run_proj_set. rewrite handle_state. unfold resized. rewrite Hr.
    discriminate.
  - intros s'. pose proof (paintGL_log s') as Hlog.
    destruct (proj s') as [p' |]; [| exact Hlog].
    exists (log_of ((draw_axes ;; draw_cube) s')).
    split; [exact Hlog | apply draws_no_matrix_call].
Qed.

(** One goal per element, or per ordered pair of elements, of a list
    written out. *)
Ltac each_element :=
  repeat first
    [ apply Forall_nil | apply Forall_cons
    | apply FOP_nil | apply FOP_cons
    | apply Forall2_nil | apply Forall2_cons ].

(** C7.  The axes table holds 36 numbers, that is 6 interleaved vertices,
    that is 3 line segments.  The segments for X, Y and Z, in this order,
    each start at the origin and end at the unit vector of their axis, and
    both endpoints carry the colour (1,0,0), (0,1,0), (0,0,1) respectively.
    [draw_axes] submits exactly these vertices with these colours. *)
Theorem axes_geometry :
  length axes_vertices = (3 * 2 * 6)%nat
  /\ length (interleaved axes_vertices) = (3 * 2)%nat
  /\ length (lines (interleaved axes_vertices)) = 3%nat
  /\ Forall2
       (fun seg k =>
          vec_eq (position (fst seg)) (0, 0, 0)
          /\ vec_eq (position (snd seg)) (on_axis k 1)
          /\ vec_eq (color (fst seg)) (on_axis k 1)
          /\ vec_eq (color (snd seg)) (on_axis k 1))
       (lines (interleaved axes_vertices)) [AxisX; AxisY; AxisZ]
  /\ (forall cur,
        submitted cur (log_of (draw_axes __init__))
        = interleaved axes_vertices).
Proof.
  split; [reflexivity |].
  split; [reflexivity |].
  split; [reflexivity |].
  split; [| intros cur; reflexivity].
  cbn [lines interleaved axes_vertices].
  each_element; repeat split; vm_compute; reflexivity.
Qed.

(** C6.  The cube table holds 144 numbers, that is 24 interleaved vertices,
    that is 6 quads.  Each quad is a square of side 1 lying in one of the
    six planes x, y, z = 0.5 or -0.5, centred on the axis of that plane, and
    its four vertices carry one colour; the six planes and the six colours
    are pairwise distinct.  Every coordinate of every vertex is 0.5 or
    -0.5, and each of the eight corners of the unit cube centred at the
    origin is the position of exactly three vertices.  [draw_cube] submits
    exactly these vertices with these colours. *)
Theorem cube_geometry :
  length cube_vertices = (6 * 4 * 6)%nat
  /\ length (interleaved cube_vertices) = (6 * 4)%nat
  /\ length (quads (interleaved cube_vertices)) = 6%nat
  /\ Forall2
       (fun q e => let '(k, h, c) := e in unit_square_at k h q /\ flat_color c q)
       (quads (interleaved cube_vertices)) cube_face_planes
  /\ ForallOrdPairs
       (fun e1 e2 => fst e1 <> fst e2 \/ ~ feq (snd e1) (snd e2))
       (map fst cube_face_planes)
  /\ ForallOrdPairs
       (fun q1 q2 => ~ vec_eq (face_color q1) (face_color q2))
       (quads (interleaved cube_vertices))
  /\ Forall
       (fun v => forall k,
          feq (coord k (position v)) 0.5 \/ feq (coord k (position v)) (-0.5))
       (interleaved cube_vertices)
  /\ Forall
       (fun c => count_position c (interleaved cube_vertices) = 3%nat)
       cube_corners
  /\ (forall cur,
        submitted cur (log_of (draw_cube __init__))
        = interleaved cube_vertices).
Proof.
  split; [reflexivity |].
  split; [reflexivity |].
  split; [reflexivity |].
  split.
  { cbn [quads interleaved cube_vertices cube_face_planes].
    each_element; repeat split; vm_compute; reflexivity. }
  split.
  { cbn [map cube_face_planes fst]. each_element;
      solve [ left; discriminate
            | right; vm_compute; discriminate ]. }
  split.
  { cbn [quads interleaved cube_vertices]. each_element;
      vm_compute; intros (H1 & H2 & H3);
      first [discriminate H1 | discriminate H2 | discriminate H3]. }
  split.
  { cbn [interleaved cube_vertices]. each_element; intros k; destruct k;
      solve [ left; vm_compute; reflexivity
            | right; vm_compute; reflexivity ]. }
  split; [cbv [cube_corners flat_map map app]; each_element; reflexivity |].
  intros cur. reflexivity.
Qed.

End Claims.

(** ** The drawing loops on any table, and the widget after any run

    The methods in isolation take any widget: the loops of [draw_axes] and
    [draw_cube] index their table by fixed strides, so they return exactly
    on the tables that hold whole segments and whole quads.  Along the
    event loop the widget is a function of the timeouts and of the last
    resize of the run. *)

Unset Implicit Arguments.

Section Coverage.

Context `{P : Pyrr}.

(** *** Indexing *)

Lemma getitem_ok (arr : list float) (j : nat) :
  (j < length arr)%nat -> getitem arr j = ret (nth j arr 0).
Proof.
  intros H. unfold getitem. now rewrite (nth_error_nth' arr 0 H).
Qed.

Lemma ok_needs_getitem A (arr : list float) (j : nat) (k : float -> M A) :
  ok_needs (j < length arr)%nat (bind (getitem arr j) k).
Proof.
  intros s a s' l. unfold bind, getitem.
  destruct (nth_error arr j) eqn:E.
  - intros _. apply nth_error_Some. congruence.
  - cbn. discriminate.
Qed.

Lemma ok_needs_bind_r A B (needed : Prop) (m : M A) (k : A -> M B) :
  (forall a, ok_needs needed (k a)) -> ok_needs needed (bind m k).
Proof.
  intros Hk s b s' l. unfold bind.
  destruct (m s) as [a s1 l1 | e s1 l1]; [| discriminate].
  destruct (k a s1) as [b' s2 l2 | e s2 l2] eqn:E; [| discriminate].
  intros _. exact (Hk a s1 b' s2 l2 E).
Qed.

Lemma ok_needs_bind_l A B (needed : Prop) (m : M A) (k : A -> M B) :
  ok_needs needed m -> ok_needs needed (bind m k).
Proof.
  intros Hm s b s' l. unfold bind.
  destruct (m s) as [a s1 l1 | e s1 l1] eqn:E; [| discriminate].
  intros _. exact (Hm s a s1 l1 E).
Qed.

Lemma ok_needs_for_ (needed : Prop) (items : list nat) (body : nat -> M unit)
    (i : nat) :
  In i items -> ok_needs needed (body i) -> ok_needs needed (for_ items body).
Proof.
  intros Hin Hi. induction items as [| j rest IH]; [destruct Hin |].
  cbn [for_]. destruct Hin as [-> | Hin].
  - now apply ok_needs_bind_l.
  - apply ok_needs_bind_r. intros _. now apply IH.
Qed.

Lemma raises_only_ret A (e : PyExn) (a : A) : raises_only e (ret a).
Proof. intros s e' s' l. discriminate. Qed.

Lemma raises_only_call (e : PyExn) (c : Call) : raises_only e (call c).
Proof. intros s e' s' l. discriminate. Qed.

Lemma raises_only_get A (e : PyExn) (field : GLWidget -> A) :
  raises_only e (get field).
Proof. intros s e' s' l. discriminate. Qed.

Lemma raises_only_getitem (arr : list float) (j : nat) :
  raises_only IndexError (getitem arr j).
Proof.
  intros s e' s' l. unfold getitem.
  destruct (nth_error arr j); cbn; [discriminate |].
  intros H. injection H as <- _ _. reflexivity.
Qed.

Lemma raises_only_bind A B (e : PyExn) (m : M A) (k : A -> M B) :
  raises_only e m -> (forall a, raises_only e (k a)) -> raises_only e (bind m k).
Proof.
  intros Hm Hk s e' s' l. unfold bind.
  destruct (m s) as [a s1 l1 | e1 s1 l1] eqn:E.
  - destruct (k a s1) as [b s2 l2 | e2 s2 l2] eqn:E2; [discriminate |].
    intros H. injection H as <- _ _. exact (Hk a s1 e2 s2 l2 E2).
  - intros H. injection H as <- _ _. exact (Hm s e1 s1 l1 E).
Qed.

Lemma raises_only_for_ (e : PyExn) (items : list nat) (body : nat -> M unit) :
  (forall i, raises_only e (body i)) -> raises_only e (for_ items body).
Proof.
  intros Hbody. induction items as [| i rest IH]; cbn [for_].
  - apply raises_only_ret.
  - apply raises_only_bind; [apply Hbody | intros _; exact IH].
Qed.

(** A loop whose iterations all return returns, with their calls in order. *)
Lemma for_ok (items : list nat) (body : nat -> M unit) (calls : nat -> list Call)
    (s : GLWidget) :
  (forall i, In i items -> body i s = Ok tt s (calls i)) ->
  for_ items body s = Ok tt s (flat_map calls items).
Proof.
  induction items as [| i rest IH]; intros H; cbn [for_ flat_map].
  - reflexivity.
  - unfold bind. rewrite (H i (or_introl eq_refl)).
    rewrite IH by (intros j Hj; apply H; now right).
    reflexivity.
Qed.

(** *** The tables as the loops read them *)

Lemma skipn_nth (arr : list float) (o : nat) :
  (o < length arr)%nat -> skipn o arr = nth o arr 0 :: skipn (S o) arr.
Proof.
  revert o. induction arr as [| x arr IH]; intros o H; cbn in H; [lia |].
  destruct o as [| o]; [reflexivity |].
  cbn [skipn nth]. apply IH. lia.
Qed.

Lemma interleaved_skipn (arr : list float) (o : nat) :
  (o + 6 <= length arr)%nat ->
  interleaved (skipn o arr)
  = {| position := (nth o arr 0, nth (o + 1) arr 0, nth (o + 2) arr 0);
       color := (nth (o + 3) arr 0, nth (o + 4) arr 0, nth (o + 5) arr 0) |}
    :: interleaved (skipn (o + 6) arr).
Proof.
  intros H.
  replace (o + 1)%nat with (S o) by lia.
  replace (o + 2)%nat with (S (S o)) by lia.
  replace (o + 3)%nat with (S (S (S o))) by lia.
  replace (o + 4)%nat with (S (S (S (S o)))) by lia.
  replace (o + 5)%nat with (S (S (S (S (S o))))) by lia.
  replace (o + 6)%nat with (S (S (S (S (S (S o)))))) by lia.
  rewrite (skipn_nth arr o) by lia.
  rewrite (skipn_nth arr (S o)) by lia.
  rewrite (skipn_nth arr (S (S o))) by lia.
  rewrite (skipn_nth arr (S (S (S o)))) by lia.
  rewrite (skipn_nth arr (S (S (S (S o))))) by lia.
  rewrite (skipn_nth arr (S (S (S (S (S o)))))) by lia.
  reflexivity.
Qed.

Lemma map_seq_shift (f : nat -> nat) (a c : nat) :
  map f (seq (S a) c) = map (fun k => f (S k)) (seq a c).
Proof. rewrite <- seq_shift. now rewrite map_map. Qed.

(** The vertices the segments of a table of [12 * c] numbers submit. *)
Lemma submitted_segments (arr : list float) (c : nat) :
  forall (o : nat) (cur : Vec3),
    (o + 12 * c = length arr)%nat ->
    submitted cur
      (flat_map (segment_calls arr) (map (fun k => (o + k * 12)%nat) (seq 0 c)))
    = interleaved (skipn o arr).
Proof.
  induction c as [| c IH]; intros o cur H.
  - cbn. rewrite skipn_all2 by lia. reflexivity.
  - cbn [seq map flat_map]. rewrite map_seq_shift.
    replace (o + 0 * 12)%nat with o by lia.
    unfold segment_calls at 1. cbn [app submitted].
    rewrite (map_ext (fun k => (o + S k * 12)%nat) (fun k => (o + 12 + k * 12)%nat))
      by (intros k; lia).
    rewrite IH by lia.
    rewrite (interleaved_skipn arr o) by lia.
    rewrite (interleaved_skipn arr (o + 6)) by lia.
    replace (o + 6 + 1)%nat with (o + 7)%nat by lia.
    replace (o + 6 + 2)%nat with (o + 8)%nat by lia.
    replace (o + 6 + 3)%nat with (o + 9)%nat by lia.
    replace (o + 6 + 4)%nat with (o + 10)%nat by lia.
    replace (o + 6 + 5)%nat with (o + 11)%nat by lia.
    replace (o + 6 + 6)%nat with (o + 12)%nat by lia.
    reflexivity.
Qed.

Lemma range_12_in (n i : nat) :
  In i (range 0 n 12) ->
  exists k, (i = k * 12 /\ k * 12 < n)%nat.
Proof.
  unfold range. intros H. apply in_map_iff in H.
  destruct H as (k & <- & Hk). apply in_seq in Hk.
  exists k. split; [lia |].
  destruct Hk as [_ Hk]. cbn [Nat.sub] in Hk.
  assert (Hd : (n - 0 + 11 = n + 11)%nat) by lia. rewrite Hd in Hk.
  pose proof (Nat.div_mod_eq (n + 11) 12).
  pose proof (Nat.mod_upper_bound (n + 11) 12). lia.
Qed.

Lemma range_12_bad (n : nat) :
  (n mod 12 <> 0)%nat -> In (n / 12 * 12)%nat (range 0 n 12).
Proof.
  intros H. unfold range. apply in_map_iff.
  exists (n / 12)%nat. split; [lia |]. apply in_seq.
  split; [lia |]. cbn [Nat.sub].
  pose proof (Nat.div_mod_eq n 12).
  pose proof (Nat.mod_upper_bound n 12).
  assert (E : ((n - 0 + 11) / 12 = n / 12 + 1)%nat).
  { symmetry. apply (Nat.div_unique _ 12 _ (n mod 12 - 1)%nat); lia. }
  lia.
Qed.

(** *** Running a bracketed loop *)

Lemma bind_call A (c : Call) (k : unit -> M A) (s : GLWidget) :
  bind (call c) k s
  = match k tt s with
    | Ok a s' l => Ok a s' (c :: l)
    | Raise e s' l => Raise e s' (c :: l)
    end.
Proof. reflexivity. Qed.

Lemma bind_get A B (field : GLWidget -> A) (k : A -> M B) (s : GLWidget) :
  bind (get field) k s = k (field s) s.
Proof. unfold bind, get. destruct (k (field s) s); reflexivity. Qed.

Lemma bind_then_call (m : M unit) (c : Call) (s : GLWidget) :
  bind m (fun _ => call c) s
  = match m s with
    | Ok _ s' l => Ok tt s' (l ++ [c])
    | Raise e s' l => Raise e s' l
    end.
Proof. unfold bind, call. destruct (m s); reflexivity. Qed.

Ltac find_getitem :=
  repeat first
    [ apply ok_needs_getitem
    | apply ok_needs_bind_r; intros ? ].

Ltac raises_index :=
  repeat first
    [ apply raises_only_for_; intros ?
    | apply raises_only_bind; [| intros ?]
    | apply raises_only_getitem
    | apply raises_only_call
    | apply raises_only_get
    | apply raises_only_ret ].

Ltac block_calls :=
  repeat first
    [ apply logs_for_; intros ?
    | apply logs_bind; [| intros ?]
    | apply logs_getitem
    | apply logs_call; reflexivity
    | apply logs_get
    | apply logs_ret ].

Ltac only_reads :=
  repeat first
    [ apply readonly_for_; intros ?
    | apply readonly_bind; [| intros ?]
    | apply readonly_getitem
    | apply readonly_call
    | apply readonly_get
    | apply readonly_ret ].

(** What a loop over a table does when it cannot return: it raises
    [IndexError], leaves the widget alone and has called nothing but
    [glColor3f] and [glVertex3f]. *)
Lemma loop_outcome (m : M unit) (s : GLWidget) :
  readonly m -> raises_only IndexError m ->
  logs (fun c => in_block c = true) m ->
  (forall s' l, m s <> Ok tt s' l) ->
  exists log, m s = Raise IndexError s log
              /\ Forall (fun c => in_block c = true) log.
Proof.
  intros Hro Hex Hlog Hno.
  specialize (Hro s). specialize (Hlog s).
  destruct (m s) as [[] s' l | e s' l] eqn:E.
  - exfalso. exact (Hno s' l eq_refl).
  - cbn in Hro, Hlog. subst s'.
    rewrite (Hex s e s l E).
    exists l. split; [reflexivity | exact Hlog].
Qed.

(** *** draw_axes *)

Lemma submitted_axes (arr : list float) (cur : Vec3) :
  (length arr mod 12 = 0)%nat ->
  submitted cur (flat_map (segment_calls arr) (range 0 (length arr) 12))
  = interleaved arr.
Proof.
  intros Hmod. unfold range. rewrite submitted_segments; [reflexivity |].
  pose proof (Nat.div_mod_eq (length arr) 12).
  assert (E : ((length arr - 0 + (12 - 1)) / 12 = length arr / 12)%nat).
  { symmetry. apply (Nat.div_unique _ 12 _ 11%nat); lia. }
  rewrite E. lia.
Qed.

Lemma draw_axes_returns (s : GLWidget) :
  (length (vertices (axes s)) mod 12 = 0)%nat ->
  draw_axes s
  = Ok tt s
      (glBegin GL_LINES
       :: flat_map (segment_calls (vertices (axes s)))
            (range 0 (length (vertices (axes s))) 12)
       ++ [glEnd]).
Proof.
  intros Hmod.
  unfold draw_axes. rewrite bind_call, bind_get, bind_then_call.
  set (arr := vertices (axes s)) in *.
  rewrite (for_ok _ _ (segment_calls arr)); [reflexivity |].
  intros i Hi. apply range_12_in in Hi. destruct Hi as (k & -> & Hk).
  assert (Hlen : (k * 12 + 12 <= length arr)%nat).
  { pose proof (Nat.div_mod_eq (length arr) 12). lia. }
  rewrite !getitem_ok by lia. reflexivity.
Qed.

Lemma draw_axes_raises (s : GLWidget) :
  (length (vertices (axes s)) mod 12 <> 0)%nat ->
  exists log,
    draw_axes s = Raise IndexError s (glBegin GL_LINES :: log)
    /\ Forall (fun c => in_block c = true) log.
Proof.
  intros Hmod.
  unfold draw_axes. rewrite bind_call, bind_get, bind_then_call.
  set (arr := vertices (axes s)) in *.
  match goal with
  | |- context [for_ ?items ?body s] =>
      destruct (loop_outcome (for_ items body) s) as (log & E & Hlog)
  end.
  - only_reads.
  - raises_index.
  - block_calls.
  - intros s' l E.
    assert (Hneed : (length arr / 12 * 12 + 11 < length arr)%nat).
    { refine (ok_needs_for_ _ _ _ _ (range_12_bad _ Hmod) _ s tt s' l E).
      find_getitem. }
    pose proof (Nat.div_mod_eq (length arr) 12).
    pose proof (Nat.mod_upper_bound (length arr) 12). lia.
  - exists log. rewrite E. split; [reflexivity | exact Hlog].
Qed.

(** *** draw_cube *)

(** The vertices the quads of a table of [24 * c] numbers submit. *)
Lemma submitted_quads (arr : list float) (c : nat) :
  forall (o : nat) (cur : Vec3),
    (o + 24 * c = length arr)%nat ->
    submitted cur
      (flat_map (quad_calls arr) (map (fun k => (o + k * 24)%nat) (seq 0 c)))
    = interleaved (skipn o arr).
Proof.
  induction c as [| c IH]; intros o cur H.
  - cbn. rewrite skipn_all2 by lia. reflexivity.
  - cbn [seq map flat_map]. rewrite map_seq_shift.
    unfold quad_calls at 1. change (range 0 4 1) with [0; 1; 2; 3]%nat.
    cbn [flat_map app submitted].
    rewrite (map_ext (fun k => (o + S k * 24)%nat) (fun k => (o + 24 + k * 24)%nat))
      by (intros k; lia).
    rewrite IH by lia.
    rewrite (interleaved_skipn arr o) by lia.
    rewrite (interleaved_skipn arr (o + 6)) by lia.
    rewrite (interleaved_skipn arr (o + 6 + 6)) by lia.
    rewrite (interleaved_skipn arr (o + 6 + 6 + 6)) by lia.
    replace (o + 0 * 24 + 0 * 6)%nat with o by lia.
    replace (o + 0 * 24 + 1 * 6)%nat with (o + 6)%nat by lia.
    replace (o + 0 * 24 + 2 * 6)%nat with (o + 6 + 6)%nat by lia.
    replace (o + 0 * 24 + 3 * 6)%nat with (o + 6 + 6 + 6)%nat by lia.
    replace (o + 24)%nat with (o + 6 + 6 + 6 + 6)%nat by lia.
    reflexivity.
Qed.

Lemma range_24_in (n i : nat) :
  In i (range 0 n 24) ->
  exists k, (i = k * 24 /\ k * 24 < n)%nat.
Proof.
  unfold range. intros H. apply in_map_iff in H.
  destruct H as (k & <- & Hk). apply in_seq in Hk.
  exists k. split; [lia |].
  destruct Hk as [_ Hk]. cbn [Nat.sub] in Hk.
  assert (Hd : (n - 0 + 23 = n + 23)%nat) by lia. rewrite Hd in Hk.
  pose proof (Nat.div_mod_eq (n + 23) 24).
  pose proof (Nat.mod_upper_bound (n + 23) 24). lia.
Qed.

Lemma range_24_bad (n : nat) :
  (n mod 24 <> 0)%nat -> In (n / 24 * 24)%nat (range 0 n 24).
Proof.
  intros H. unfold range. apply in_map_iff.
  exists (n / 24)%nat. split; [lia |]. apply in_seq.
  split; [lia |]. cbn [Nat.sub].
  pose proof (Nat.div_mod_eq n 24).
  pose proof (Nat.mod_upper_bound n 24).
  assert (E : ((n - 0 + 23) / 24 = n / 24 + 1)%nat).
  { symmetry. apply (Nat.div_unique _ 24 _ (n mod 24 - 1)%nat); lia. }
  lia.
Qed.

Lemma submitted_cube (arr : list float) (cur : Vec3) :
  (length arr mod 24 = 0)%nat ->
  submitted cur (flat_map (quad_calls arr) (range 0 (length arr) 24))
  = interleaved arr.
Proof.
  intros Hmod. unfold range at 1. rewrite submitted_quads; [reflexivity |].
  pose proof (Nat.div_mod_eq (length arr) 24).
  assert (E : ((length arr - 0 + (24 - 1)) / 24 = length arr / 24)%nat).
  { symmetry. apply (Nat.div_unique _ 24 _ 23%nat); lia. }
  rewrite E. lia.
Qed.

Lemma draw_cube_returns (s : GLWidget) :
  (length (vertices (cube s)) mod 24 = 0)%nat ->
  draw_cube s
  = Ok tt s
      (glBegin GL_QUADS
       :: flat_map (quad_calls (vertices (cube s)))
            (range 0 (length (vertices (cube s))) 24)
       ++ [glEnd]).
Proof.
  intros Hmod.
  unfold draw_cube. rewrite bind_call, bind_get, bind_then_call.
  set (arr := vertices (cube s)) in *.
  rewrite (for_ok _ _ (quad_calls arr)); [reflexivity |].
  intros i Hi. apply range_24_in in Hi. destruct Hi as (k & -> & Hk).
  assert (Hlen : (k * 24 + 24 <= length arr)%nat).
  { pose proof (Nat.div_mod_eq (length arr) 24). lia. }
  unfold quad_calls. apply for_ok.
  intros j Hj. change (range 0 4 1) with [0; 1; 2; 3]%nat in Hj.
  assert (Hj3 : (j <= 3)%nat) by (cbn in Hj; lia).
  cbv zeta. rewrite !getitem_ok by lia. reflexivity.
Qed.

Lemma draw_cube_raises (s : GLWidget) :
  (length (vertices (cube s)) mod 24 <> 0)%nat ->
  exists log,
    draw_cube s = Raise IndexError s (glBegin GL_QUADS :: log)
    /\ Forall (fun c => in_block c = true) log.
Proof.
  intros Hmod.
  unfold draw_cube. rewrite bind_call, bind_get, bind_then_call.
  set (arr := vertices (cube s)) in *.
  match goal with
  | |- context [for_ ?items ?body s] =>
      destruct (loop_outcome (for_ items body) s) as (log & E & Hlog)
  end.
  - only_reads.
  - raises_index.
  - block_calls.
  - intros s' l E.
    assert (Hneed : (length arr / 24 * 24 + 3 * 6 + 5 < length arr)%nat).
    { refine (ok_needs_for_ _ _ _ _ (range_24_bad _ Hmod) _ s tt s' l E).
      apply (ok_needs_for_ _ _ _ 3%nat); [cbn; tauto |].
      cbv zeta. find_getitem. }
    pose proof (Nat.div_mod_eq (length arr) 24).
    pose proof (Nat.mod_upper_bound (length arr) 24). lia.
  - exists log. rewrite E. split; [reflexivity | exact Hlog].
Qed.

(** *** paintGL *)

Lemma paintGL_with_proj (s : GLWidget) (p : Matrix44) :
  proj s = Some p ->
  paintGL s
  = match draw_axes s with
    | Ok _ s1 l1 =>
        match draw_cube s1 with
        | Ok _ s2 l2 =>
            Ok tt s2
              (glClear [GL_COLOR_BUFFER_BIT; GL_DEPTH_BUFFER_BIT]
               :: glMatrixMode GL_MODELVIEW
               :: glLoadMatrixf (astype_f4 (mul (mul p (view s)) (model s)))
               :: l1 ++ l2)
        | Raise e s2 l2 =>
            Raise e s2
              (glClear [GL_COLOR_BUFFER_BIT; GL_DEPTH_BUFFER_BIT]
               :: glMatrixMode GL_MODELVIEW
               :: glLoadMatrixf (astype_f4 (mul (mul p (view s)) (model s)))
               :: l1 ++ l2)
        end
    | Raise e s1 l1 =>
        Raise e s1
          (glClear [GL_COLOR_BUFFER_BIT; GL_DEPTH_BUFFER_BIT]
           :: glMatrixMode GL_MODELVIEW
           :: glLoadMatrixf (astype_f4 (mul (mul p (view s)) (model s)))
           :: l1)
    end.
Proof.
  intros E. unfold paintGL.
  cbv [bind call get mul_obj ret]. rewrite E.
  destruct (draw_axes s) as [[] s1 l1 | e s1 l1]; [| reflexivity].
  destruct (draw_cube s1) as [[] s2 l2 | e s2 l2]; reflexivity.
Qed.

(** *** Runs of the event loop from the constructed widget *)

Lemma timeouts_app (evs1 evs2 : list Event) :
  timeouts (evs1 ++ evs2) = (timeouts evs1 + timeouts evs2)%nat.
Proof.
  induction evs1 as [| e rest IH]; [reflexivity |].
  destruct e; cbn [app timeouts]; rewrite IH; reflexivity.
Qed.

Lemma timeouts_repeat (n : nat) : timeouts (repeat Timeout n) = n.
Proof. induction n as [| n IH]; [reflexivity |]. cbn. now rewrite IH. Qed.

Lemma last_resize_snoc (evs : list Event) (e : Event) :
  last_resize (evs ++ [e])
  = match e with
    | Resize w h => if resize_returns w h then Some (w, h) else last_resize evs
    | _ => last_resize evs
    end.
Proof. unfold last_resize. rewrite fold_left_app. reflexivity. Qed.

Lemma run_snoc (evs : list Event) (e : Event) (s : GLWidget) :
  run (evs ++ [e]) s = state_of (handle e (run evs s)).
Proof. rewrite run_app. reflexivity. Qed.

(** The angles a run from 0.0 goes through: one more timeout takes the
    float of [k] to the float of [k + 1], and that of 359 back to 0.0. *)
Lemma next_angle_count (k : nat) :
  (k < 360)%nat ->
  next_angle (Z2float (Z.of_nat k)) = Z2float (Z.of_nat (S k mod 360)).
Proof.
  intros Hk.
  assert (T : map (fun k => next_angle (Z2float (Z.of_nat k))) (seq 0 360)
              = map (fun k => Z2float (Z.of_nat (S k mod 360))) (seq 0 360))
    by (vm_compute; reflexivity).
  apply (ext_in_map T). apply in_seq. lia.
Qed.

Lemma last_resize_timeouts (evs : list Event) (n : nat) :
  last_resize (evs ++ repeat Timeout n) = last_resize evs.
Proof.
  unfold last_resize. rewrite fold_left_app.
  generalize (fold_left
    (fun acc e =>
       match e with
       | Resize w h => if resize_returns w h then Some (w, h) else acc
       | _ => acc
       end)
    evs None).
  induction n as [| n IH]; intros acc; [reflexivity | apply IH].
Qed.

(** The widget after a run, from the timeouts the run holds and its last
    resize. *)
Lemma run_from_init (evs : list Event) :
  run evs __init__
  = {| angle := Z2float (Z.of_nat (timeouts evs mod 360));
       proj := match last_resize evs with
               | Some (w, h) =>
                   Some (perspective_projection 45.0 (aspect_of w h) 0.1 100.0)
               | None => None
               end;
       view := view __init__;
       model := if (timeouts evs =? 0)%nat then identity
                else from_y_rotation
                       (radians (Z2float (Z.of_nat (timeouts evs mod 360))));
       axes := axes __init__;
       cube := cube __init__ |}.
Proof.
  induction evs as [| e evs IH] using rev_ind; [reflexivity |].
  rewrite run_snoc, IH, handle_state, timeouts_app, last_resize_snoc.
  destruct e; cbn [timeouts]; rewrite ?Nat.add_0_r; try reflexivity;
    [| unfold resized; destruct (resize_returns w h); reflexivity].
  unfold rotated. cbn [angle proj view model axes cube].
  rewrite next_angle_count by (apply Nat.mod_upper_bound; lia).
  replace (S (timeouts evs mod 360) mod 360)%nat
    with ((timeouts evs + 1) mod 360)%nat
    by (rewrite <- (Nat.add_1_r (timeouts evs mod 360));
        now rewrite Nat.Div0.add_mod_idemp_l).
  destruct (Nat.eqb_spec (timeouts evs + 1) 0) as [H0 | _]; [lia |].
  reflexivity.
Qed.

(** *** The properties *)

(** [draw_axes] on any table.  When the length of the table is a multiple
    of 12 it returns, leaves the widget as it was, and between
    [glBegin(GL_LINES)] and [glEnd] submits the interleaved vertices of the
    table, each with its own colour.  Otherwise an index runs past the end
    of the table in the last iteration: it raises [IndexError], the widget
    is as it was, and after [glBegin(GL_LINES)] only colours and vertices
    were sent, so [glEnd] was never called. *)
Theorem draw_axes_outcome (s : GLWidget) :
  if (length (vertices (axes s)) mod 12 =? 0)%nat
  then exists log,
         draw_axes s = Ok tt s (glBegin GL_LINES :: log ++ [glEnd])
         /\ (forall cur, submitted cur log = interleaved (vertices (axes s)))
  else exists log,
         draw_axes s = Raise IndexError s (glBegin GL_LINES :: log)
         /\ Forall (fun c => in_block c = true) log.
Proof.
  destruct (Nat.eqb_spec (length (vertices (axes s)) mod 12) 0) as [Hmod | Hmod].
  - eexists. split; [apply (draw_axes_returns s Hmod) |].
    intros cur. apply submitted_axes, Hmod.
  - apply draw_axes_raises, Hmod.
Qed.

(** [draw_cube] on any table.  When the length of the table is a multiple
    of 24 it returns, leaves the widget as it was, and between
    [glBegin(GL_QUADS)] and [glEnd] submits the interleaved vertices of the
    table, each with its own colour.  Otherwise it raises [IndexError] in
    the last quad, the widget is as it was, and [glEnd] was never called. *)
Theorem draw_cube_outcome (s : GLWidget) :
  if (length (vertices (cube s)) mod 24 =? 0)%nat
  then exists log,
         draw_cube s = Ok tt s (glBegin GL_QUADS :: log ++ [glEnd])
         /\ (forall cur, submitted cur log = interleaved (vertices (cube s)))
  else exists log,
         draw_cube s = Raise IndexError s (glBegin GL_QUADS :: log)
         /\ Forall (fun c => in_block c = true) log.
Proof.
  destruct (Nat.eqb_spec (length (vertices (cube s)) mod 24) 0) as [Hmod | Hmod].
  - eexists. split; [apply (draw_cube_returns s Hmod) |].
    intros cur. apply submitted_cube, Hmod.
  - apply draw_cube_raises, Hmod.
Qed.

(** [paintGL] on any widget.  Without a projection it raises after
    [glClear] and draws nothing.  With one it clears, loads the one
    combined matrix, and draws the axes and then the cube: it returns when
    both tables are whole (lengths multiples of 12 and of 24); when the
    axes table is not, it raises inside the axes and never begins the
    cube; when only the cube table is not, the axes are drawn and closed
    and it raises inside the cube.  The widget is as it was in every
    case. *)
Theorem paintGL_outcome (s : GLWidget) :
  match proj s with
  | None =>
      paintGL s
      = Raise OperandError s [glClear [GL_COLOR_BUFFER_BIT; GL_DEPTH_BUFFER_BIT]]
  | Some p =>
      let head :=
        [glClear [GL_COLOR_BUFFER_BIT; GL_DEPTH_BUFFER_BIT];
         glMatrixMode GL_MODELVIEW;
         glLoadMatrixf (astype_f4 (mul (mul p (view s)) (model s)));
         glBegin GL_LINES] in
      if (length (vertices (axes s)) mod 12 =? 0)%nat
      then exists axes_log,
             (forall cur,
                submitted cur axes_log = interleaved (vertices (axes s)))
             /\ if (length (vertices (cube s)) mod 24 =? 0)%nat
                then exists cube_log,
                       paintGL s
                       = Ok tt s
                           (head ++ axes_log ++ glEnd :: glBegin GL_QUADS
                                 :: cube_log ++ [glEnd])
                       /\ (forall cur,
                             submitted cur cube_log
                             = interleaved (vertices (cube s)))
                else exists cube_log,
                       paintGL s
                       = Raise IndexError s
                           (head ++ axes_log ++ glEnd :: glBegin GL_QUADS
                                 :: cube_log)
                       /\ Forall (fun c => in_block c = true) cube_log
      else exists axes_log,
             paintGL s = Raise IndexError s (head ++ axes_log)
             /\ Forall (fun c => in_block c = true) axes_log
  end.
Proof.
  pose proof (paintGL_log s) as Hnone.
  destruct (proj s) as [p |] eqn:Hp; [clear Hnone | exact Hnone].
  cbv zeta. rewrite (paintGL_with_proj s p Hp).
  destruct (Nat.eqb_spec (length (vertices (axes s)) mod 12) 0) as [Ha | Ha].
  - rewrite (draw_axes_returns s Ha).
    eexists. split; [intros cur; apply submitted_axes, Ha |].
    destruct (Nat.eqb_spec (length (vertices (cube s)) mod 24) 0) as [Hc | Hc].
    + rewrite (draw_cube_returns s Hc).
      eexists. split; [| intros cur; apply submitted_cube, Hc].
      cbn [app]. rewrite <- !app_assoc. reflexivity.
    + destruct (draw_cube_raises s Hc) as (log & E & Hlog). rewrite E.
      exists log. split; [| exact Hlog].
      cbn [app]. rewrite <- !app_assoc. reflexivity.
  - destruct (draw_axes_raises s Ha) as (log & E & Hlog). rewrite E.
    exists log. split; [reflexivity | exact Hlog].
Qed.

(** The angle after any run of the event loop from the constructed widget
    is the float of the number of timeouts of the run modulo 360: every
    addition and subtraction [update_rotation] makes along the way is
    exact, and no other event touches the angle. *)
Theorem run_angle (evs : list Event) :
  angle (run evs __init__) = Z2float (Z.of_nat (timeouts evs mod 360)).
Proof. rewrite run_from_init. reflexivity. Qed.

(** The model matrix after any run from the constructed widget: the
    identity until the first timeout, and from then on the rotation about
    Y by the current angle, so that model and angle never disagree. *)
Theorem run_model (evs : list Event) :
  model (run evs __init__)
  = if (timeouts evs =? 0)%nat then identity
    else from_y_rotation (radians (angle (run evs __init__))).
Proof. rewrite run_from_init. reflexivity. Qed.

(** The projection after any run from the constructed widget: [None] until
    the first resize, and from then on the perspective of 45 degrees, near
    0.1, far 100.0 with the aspect ratio of the last resize alone. *)
Theorem run_proj (evs : list Event) :
  proj (run evs __init__)
  = match last_resize evs with
    | Some (w, h) => Some (perspective_projection 45.0 (aspect_of w h) 0.1 100.0)
    | None => None
    end.
Proof. rewrite run_from_init. reflexivity. Qed.

(** Painting, initialising OpenGL and [add_geometry] are invisible to the
    widget: a run ends in the widget its timeouts and resizes alone would
    give, from any widget, also one on which painting raises. *)
Theorem run_changes_state (evs : list Event) (s : GLWidget) :
  run evs s = run (filter changes_state evs) s.
Proof.
  revert s. induction evs as [| e evs IH]; intros s; [reflexivity |].
  cbn [run filter].
  destruct e; cbn [changes_state run]; rewrite handle_state; apply IH.
Qed.

(** Painting after a run from the constructed widget raises exactly when
    the run holds no resize: then it stops after [glClear]; after a resize
    it returns, whatever else the run holds. *)
Theorem paint_needs_resize (evs : list Event) :
  let s := run evs __init__ in
  match last_resize evs with
  | None =>
      paintGL s
      = Raise OperandError s [glClear [GL_COLOR_BUFFER_BIT; GL_DEPTH_BUFFER_BIT]]
  | Some _ => exists log, paintGL s = Ok tt s log
  end.
Proof.
  cbv zeta.
  pose proof (paintGL_log (run evs __init__)) as Hnone.
  assert (Hproj := run_from_init evs).
  apply (f_equal proj) in Hproj. cbn [proj] in Hproj.
  destruct (run_tables evs __init__) as [Ha Hc].
  destruct (last_resize evs) as [[w h] |].
  - rewrite (paintGL_with_proj _ _ Hproj).
    rewrite draw_axes_returns by (rewrite Ha; reflexivity).
    rewrite draw_cube_returns by (rewrite Hc; reflexivity).
    eexists. reflexivity.
  - rewrite Hproj in Hnone. exact Hnone.
Qed.

(** Once a timeout has fired, 360 more timeouts bring the whole widget
    back: angle, model, projection, view and tables. *)
Theorem run_full_turn (evs : list Event) :
  timeouts evs <> 0%nat ->
  run (evs ++ repeat Timeout 360) __init__ = run evs __init__.
Proof.
  intros H. rewrite !run_from_init.
  rewrite timeouts_app, timeouts_repeat, last_resize_timeouts.
  replace (timeouts evs + 360)%nat with (timeouts evs + 1 * 360)%nat by lia.
  rewrite Nat.Div0.mod_add.
  destruct (Nat.eqb_spec (timeouts evs + 1 * 360) 0) as [H0 | _]; [lia |].
  destruct (Nat.eqb_spec (timeouts evs) 0) as [H0 | _]; [contradiction |].
  reflexivity.
Qed.

End Coverage.

Set Implicit Arguments.

(** ** Concrete runs *)

Lemma update_rotation_keeps_range_at_359_5 :
  in_range (angle (widget_at 359.5)) = true
  /\ in_range (angle (state_of (update_rotation (widget_at 359.5)))) = true
  /\ angle (state_of (update_rotation (widget_at 359.5))) = 0.5.
Proof.
  assert (H : in_range (angle (widget_at 359.5)) = true) by reflexivity.
  split; [exact H |].
  split; [| reflexivity].
  exact (proj1 (proj2 (update_rotation_keeps_range (widget_at 359.5) H))).
Defined.

Lemma update_rotation_advances_at_359_5 :
  in_range (angle (widget_at 359.5)) = true
  /\ (exists q q',
        to_Q (angle (widget_at 359.5) + 1.0) = Some q
        /\ to_Q (angle (state_of (update_rotation (widget_at 359.5)))) = Some q'
        /\ (q' == spec_mod q 360)%Q)
  /\ in_range (angle (state_of (ticks 3 (widget_at 359.5)))) = true.
Proof.
  assert (H : in_range (angle (widget_at 359.5)) = true) by reflexivity.
  split; [exact H |].
  pose proof (proj2 (proj2 (proj2 (proj2 (proj2 (proj2
                (update_rotation_advances (widget_at 359.5) 2))))))
              H) as T.
  split; [apply T | apply T].
Defined.

(** C1 as stated fails from the angle 1000.0: one [update_rotation]
    leaves 641.0, which is neither [(1000.0 + 1.0) mod 360 = 281] nor in
    [0, 360). *)
Lemma update_rotation_from_1000 :
  update_rotation (widget_at 1000.0)
  = Ok tt (state_of (update_rotation (widget_at 1000.0))) [update]
  /\ angle (state_of (update_rotation (widget_at 1000.0))) = 641.0
  /\ match to_Q (angle (widget_at 1000.0) + 1.0),
           to_Q (angle (state_of (update_rotation (widget_at 1000.0)))) with
     | Some q, Some q' =>
         (q == 1001 /\ q' == 641 /\ spec_mod q 360 == 281
          /\ ~ q' == spec_mod q 360)%Q
     | _, _ => False
     end
  /\ in_range (angle (state_of (update_rotation (widget_at 1000.0)))) = false.
Proof.
  split; [reflexivity |].
  split; [reflexivity |].
  split; [| reflexivity].
  vm_compute. repeat split; discriminate.
Qed.

Lemma full_turn_from_init :
  angle widget0 = 0.0
  /\ angle (state_of (ticks 360 widget0)) = 0.0
  /\ model (state_of (ticks 360 widget0)) = FromYRotation (deg2rad 0.0)
  /\ symbolic_allclose 0.001 (model (state_of (ticks 360 widget0))) Identity
     = true
  /\ symbolic_allclose 0.001 (model (state_of (ticks 359 widget0))) Identity
     = false.
Proof.
  assert (H : angle widget0 = 0.0) by reflexivity.
  split; [exact H |].
  pose proof (full_turn SymbolicPyrrLaws widget0 H) as T.
  split; [apply T |].
  split; [apply T |].
  split; [| vm_compute; reflexivity].
  apply (proj1 (proj2 (proj2 (proj2 T))) 0.001). reflexivity.
Defined.

Lemma paintGL_one_transform_after_resize :
  proj widget_resized
  = Some (PerspectiveProjection 45.0 (Z2float 1024 / Z2float 768) 0.1 100.0)
  /\ loaded (log_of (paintGL widget_resized))
     = [AsType_f4
          (Mul (Mul (PerspectiveProjection 45.0 (Z2float 1024 / Z2float 768) 0.1 100.0)
                    (LookAt [3.0; 3.0; 3.0] [0.0; 0.0; 0.0] [0.0; 1.0; 0.0]))
               (FromYRotation (deg2rad 1.0)))].
Proof.
  assert (H : proj (run [Resize 1024 768; Timeout] widget0)
              = Some (PerspectiveProjection 45.0 (Z2float 1024 / Z2float 768)
                        0.1 100.0)) by reflexivity.
  split; [exact H |].
  exact (proj1 (proj2 (paintGL_one_transform (P := SymbolicPyrr)
                         [Resize 1024 768; Timeout] H))).
Defined.

Lemma resizeGL_aspect_at_1024_768 :
  768%Z <> 0%Z
  /\ overflows 1024 768 = false
  /\ proj (state_of (resizeGL 1024 0 widget0))
     = Some (PerspectiveProjection 45.0 1 0.1 100.0)
  /\ proj (state_of (resizeGL 1024 768 widget0))
     = Some (PerspectiveProjection 45.0 (SF2Prim (quotient 1024 768)) 0.1 100.0)
  /\ SF2Prim (quotient 1024 768) = 1.3333333333333333
  /\ SF2Prim (quotient 1024 768) = Z2float 1024 / Z2float 768.
Proof.
  assert (H : 768%Z <> 0%Z) by discriminate.
  assert (Hov : overflows 1024 768 = false) by reflexivity.
  split; [exact H |].
  split; [exact Hov |].
  split; [exact (proj2 (proj1 (resizeGL_aspect 1024 widget0))) |].
  split;
    [exact (proj2 (proj1 (proj2 (resizeGL_aspect 1024 widget0)) 768%Z H Hov)) |].
  split; reflexivity.
Defined.

(** C3 as stated fails at the width 10^400 and the height 1: the quotient
    is beyond the range of a float, [w / h] raises [OverflowError] and no
    projection is stored. *)
Lemma resizeGL_overflow_at_10_pow_400 :
  (1 <> 0)%Z
  /\ resizeGL (10 ^ 400) 1 widget0
     = Raise OverflowError widget0 [glViewport 0 0 (10 ^ 400) 1]
  /\ proj (state_of (resizeGL (10 ^ 400) 1 widget0)) = None
  /\ (forall aspect,
        proj (state_of (resizeGL (10 ^ 400) 1 widget0))
        <> Some (PerspectiveProjection 45.0 aspect 0.1 100.0)).
Proof.
  assert (E : resizeGL (10 ^ 400) 1 widget0
              = Raise OverflowError widget0 [glViewport 0 0 (10 ^ 400) 1])
    by (vm_compute; reflexivity).
  split; [discriminate |].
  split; [exact E |].
  rewrite E. split; [reflexivity |].
  intros aspect. discriminate.
Qed.

(** The ends of [0, 360): negative zero, the least positive number and the
    greatest number below 360 step into the interval, as the theorem says
    they must; the least number not below 360 is outside it. *)
Lemma next_angle_at_the_ends :
  in_range (next_angle (-0.0)) = true
  /\ in_range (next_angle (next_up 0.0)) = true
  /\ in_range (next_down 360.0) = true
  /\ in_range (next_angle (next_down 360.0)) = true
  /\ in_range 360.0 = false.
Proof. repeat split; vm_compute; reflexivity. Qed.

(** A run with a resize, one timeout and a paint: 360 more timeouts end in
    the same widget. *)
Lemma run_full_turn_after_one_timeout :
  timeouts [Resize 800 600; Timeout; Paint] <> 0%nat
  /\ run ([Resize 800 600; Timeout; Paint] ++ repeat Timeout 360) widget0
     = run [Resize 800 600; Timeout; Paint] widget0.
Proof.
  assert (H : timeouts [Resize 800 600; Timeout; Paint] <> 0%nat)
    by discriminate.
  split; [exact H |].
  exact (run_full_turn (P := SymbolicPyrr) [Resize 800 600; Timeout; Paint] H).
Defined.
